(** * QuantumGate: the [Endpoint] variant of the network layer

    A shallow embedding of [QuantumGate::Implementation::Network::Endpoint]
    (Endpoint.h): a discriminant [m_Type] next to an anonymous union of
    [m_Dummy], [m_IPEndpoint] and [m_BTHEndpoint], with hand-written copy,
    move and conversion helpers.

    Objects live in a store indexed by their address, because the assignment
    operators compare [this] with [&other] and because a move writes to the
    object it moves from.  [assert] is modelled as in a build that keeps
    assertions (no NDEBUG): a false condition is a fault that stops the
    operation; and so is a read of a union member that is not the active
    one. *)

From stdpp Require Import base numbers option gmap fin_maps.

Open Scope N_scope.

(** ** Results and faults *)

Inductive Fault : Type :=
| AssertionFailure   (* an [assert] whose condition is false *)
| InactiveMember     (* a read of a union member that is not active *)
| NoObject           (* an address that holds no Endpoint *)
| Misuse.            (* an operation outside the life time of its operands *)

Inductive result (A : Type) : Type :=
| Ok (a : A)
| Err (f : Fault).

Arguments Ok {A} a.
Arguments Err {A} f.

#[global] Instance result_ret : MRet result := λ A a, Ok a.
#[global] Instance result_bind : MBind result := λ A B f m,
  match m with
  | Ok a => f a
  | Err e => Err e
  end.

Definition is_Ok {A : Type} (r : result A) : Prop := ∃ a, r = Ok a.

(** ** Shared enumerations and identifiers *)

Module Network.

(** Modelled from the spec: the declaration of [Network::Protocol] is not part
    of the sources at hand; the spec gives the closed enumeration
    {Unspecified, TCP, UDP, ICMP, RFCOMM}. *)
Inductive Protocol : Type := Unspecified | TCP | UDP | ICMP | RFCOMM.

#[global] Instance Protocol_eq_dec : EqDecision Protocol.
Proof. solve_decision. Defined.

(** Modelled from the spec: [RelayPort] and [RelayHop] are unsigned integers,
    0 meaning a direct connection. *)
Definition RelayPort : Type := N.
Definition RelayHop : Type := N.

(** Modelled from the spec: an IP host address is a v4 or a v6 address; only
    its identity matters here, so it is kept as the number its bytes spell. *)
Inductive IPAddress : Type := IPv4 (bits : N) | IPv6 (bits : N).

#[global] Instance IPAddress_eq_dec : EqDecision IPAddress.
Proof. solve_decision. Defined.

(** Modelled from the spec: a Bluetooth device address is a 48-bit number. *)
Definition BTHAddress : Type := N.

End Network.

Import Network.

(** ** IPEndpoint *)

Module IPEndpoint.

(** Modelled from the spec: IPEndpoint.h is not part of the sources at hand.
    The spec gives the fields {address, port, protocol, relay_port,
    relay_hop}. *)
Record t : Type := mk {
  protocol : Protocol;
  address : IPAddress;
  port : N;
  relay_port : RelayPort;
  relay_hop : RelayHop
}.

#[global] Instance t_eq_dec : EqDecision t.
Proof. solve_decision. Defined.

(** The protocols of the IP family. *)
Definition valid_protocol (p : Protocol) : bool :=
  match p with
  | TCP | UDP | ICMP => true
  | _ => false
  end.

(** Modelled from the spec: the protocol of an IPEndpoint is "restricted to
    {TCP,UDP,ICMP,Unspecified}"; these are the values an IPEndpoint can
    hold. *)
Definition representable (e : t) : bool :=
  match protocol e with
  | RFCOMM => false
  | _ => true
  end.

(** Modelled from the spec: "an incompatible protocol yields a value with
    protocol = Unspecified". *)
Definition ValidateProtocol (p : Protocol) : Protocol :=
  if valid_protocol p then p else Unspecified.

(** Modelled from the spec: the validating constructor. *)
Definition make (p : Protocol) (a : IPAddress) (port : N)
    (rport : RelayPort) (hop : RelayHop) : t :=
  mk (ValidateProtocol p) a port rport hop.

Definition GetProtocol (e : t) : Protocol := protocol e.
Definition GetRelayPort (e : t) : RelayPort := relay_port e.
Definition GetRelayHop (e : t) : RelayHop := relay_hop e.

(** Modelled from the spec: "value equality comparing address, port/channel,
    protocol, and relay coordinates". *)
Definition eqb (a b : t) : bool :=
  bool_decide (protocol a = protocol b)
  && bool_decide (address a = address b)
  && (port a =? port b)
  && (relay_port a =? relay_port b)
  && (relay_hop a =? relay_hop b).

End IPEndpoint.

(** ** BTHEndpoint *)

Module BTHEndpoint.

(** Modelled from the spec: BTHEndpoint.h is not part of the sources at hand.
    The spec gives the fields {address, service channel or port, protocol,
    relay_port, relay_hop}. *)
Record t : Type := mk {
  protocol : Protocol;
  address : BTHAddress;
  port : N;
  relay_port : RelayPort;
  relay_hop : RelayHop
}.

#[global] Instance t_eq_dec : EqDecision t.
Proof. solve_decision. Defined.

(** The protocols of the Bluetooth family. *)
Definition valid_protocol (p : Protocol) : bool :=
  match p with
  | RFCOMM => true
  | _ => false
  end.

(** Modelled from the spec: the protocol of a BTHEndpoint is "restricted to
    {RFCOMM,Unspecified}"; these are the values a BTHEndpoint can hold. *)
Definition representable (e : t) : bool :=
  match protocol e with
  | RFCOMM | Unspecified => true
  | _ => false
  end.

(** Modelled from the spec: "an incompatible protocol yields a value with
    protocol = Unspecified". *)
Definition ValidateProtocol (p : Protocol) : Protocol :=
  if valid_protocol p then p else Unspecified.

(** Modelled from the spec: the validating constructor. *)
Definition make (p : Protocol) (a : BTHAddress) (port : N)
    (rport : RelayPort) (hop : RelayHop) : t :=
  mk (ValidateProtocol p) a port rport hop.

Definition GetProtocol (e : t) : Protocol := protocol e.
Definition GetRelayPort (e : t) : RelayPort := relay_port e.
Definition GetRelayHop (e : t) : RelayHop := relay_hop e.

(** Modelled from the spec: "value equality comparing address, port/channel,
    protocol, and relay coordinates". *)
Definition eqb (a b : t) : bool :=
  bool_decide (protocol a = protocol b)
  && (address a =? address b)
  && (port a =? port b)
  && (relay_port a =? relay_port b)
  && (relay_hop a =? relay_hop b).

End BTHEndpoint.

(** ** Endpoint: the object *)

(** [enum class Type : UInt8 { Unspecified, IP, BTH }], kept as the value of
    its underlying type so that the [default:] branches of the switches are
    part of the model. *)
Definition Type_Unspecified : N := 0.
Definition Type_IP : N := 1.
Definition Type_BTH : N := 2.

(** The anonymous union: which member was written last, and its value.
    [Indeterminate] is the storage of an object whose constructor has not yet
    written any member. *)
Inductive Storage : Type :=
| m_Dummy (i : Z)
| m_IPEndpoint (v : IPEndpoint.t)
| m_BTHEndpoint (v : BTHEndpoint.t)
| Indeterminate.

Record Endpoint : Type := mkEndpoint {
  m_Type : N;
  m_Storage : Storage
}.

#[global] Instance Storage_eq_dec : EqDecision Storage.
Proof. solve_decision. Defined.

#[global] Instance Endpoint_eq_dec : EqDecision Endpoint.
Proof. solve_decision. Defined.

(** Reading a member of the union. *)
Definition as_IPEndpoint (s : Storage) : result IPEndpoint.t :=
  match s with
  | m_IPEndpoint v => Ok v
  | _ => Err InactiveMember
  end.

Definition as_BTHEndpoint (s : Storage) : result BTHEndpoint.t :=
  match s with
  | m_BTHEndpoint v => Ok v
  | _ => Err InactiveMember
  end.

(** ** Endpoint: the const member functions

    They read one object (two for the comparison) and write nothing, so they
    are functions of the objects' values. *)

Definition GetType (e : Endpoint) : N := m_Type e.

Definition GetIPEndpoint (e : Endpoint) : result IPEndpoint.t :=
  if m_Type e =? Type_IP then as_IPEndpoint (m_Storage e)
  else Err AssertionFailure.

Definition GetBTHEndpoint (e : Endpoint) : result BTHEndpoint.t :=
  if m_Type e =? Type_BTH then as_BTHEndpoint (m_Storage e)
  else Err AssertionFailure.

Definition GetRelayPort (e : Endpoint) : result RelayPort :=
  if m_Type e =? Type_IP then
    v ← as_IPEndpoint (m_Storage e); mret (IPEndpoint.GetRelayPort v)
  else if m_Type e =? Type_BTH then
    v ← as_BTHEndpoint (m_Storage e); mret (BTHEndpoint.GetRelayPort v)
  else if m_Type e =? Type_Unspecified then mret 0
  else Err AssertionFailure.

Definition GetRelayHop (e : Endpoint) : result RelayHop :=
  if m_Type e =? Type_IP then
    v ← as_IPEndpoint (m_Storage e); mret (IPEndpoint.GetRelayHop v)
  else if m_Type e =? Type_BTH then
    v ← as_BTHEndpoint (m_Storage e); mret (BTHEndpoint.GetRelayHop v)
  else if m_Type e =? Type_Unspecified then mret 0
  else Err AssertionFailure.

(** [operator==] *)
Definition op_eq (this other : Endpoint) : result bool :=
  if m_Type this =? m_Type other then
    if m_Type this =? Type_IP then
      x ← as_IPEndpoint (m_Storage this);
      y ← as_IPEndpoint (m_Storage other);
      mret (IPEndpoint.eqb x y)
    else if m_Type this =? Type_BTH then
      x ← as_BTHEndpoint (m_Storage this);
      y ← as_BTHEndpoint (m_Storage other);
      mret (BTHEndpoint.eqb x y)
    else if m_Type this =? Type_Unspecified then mret true
    else Err AssertionFailure
  else mret false.

(** [operator!=] *)
Definition op_ne (this other : Endpoint) : result bool :=
  r ← op_eq this other; mret (negb r).

(** ** The store of objects and the operations that write to it *)

Abbreviation loc := positive.
Abbreviation Store := (gmap loc Endpoint).

Definition M (A : Type) : Type := Store → result (A * Store).

#[global] Instance M_ret : MRet M := λ A a h, Ok (a, h).
#[global] Instance M_bind : MBind M := λ A B f m h,
  match m h with
  | Ok (a, h') => f a h'
  | Err e => Err e
  end.

Definition fail {A : Type} (f : Fault) : M A := λ _, Err f.

Definition load (l : loc) : M Endpoint := λ h,
  match h !! l with
  | Some e => Ok (e, h)
  | None => Err NoObject
  end.

Definition store (l : loc) (e : Endpoint) : M unit := λ h,
  Ok (tt, <[l := e]> h).

Definition get_m_Type (l : loc) : M N :=
  e ← load l; mret (m_Type e).

Definition set_m_Type (l : loc) (ty : N) : M unit :=
  e ← load l; store l (mkEndpoint ty (m_Storage e)).

(** [std::exchange(l.m_Type, ty)] *)
Definition exchange_m_Type (l : loc) (ty : N) : M N :=
  old ← get_m_Type l; set_m_Type l ty;; mret old.

Definition read_m_IPEndpoint (l : loc) : M IPEndpoint.t :=
  e ← load l;
  match as_IPEndpoint (m_Storage e) with
  | Ok v => mret v
  | Err f => fail f
  end.

Definition read_m_BTHEndpoint (l : loc) : M BTHEndpoint.t :=
  e ← load l;
  match as_BTHEndpoint (m_Storage e) with
  | Ok v => mret v
  | Err f => fail f
  end.

Definition write_Storage (l : loc) (s : Storage) : M unit :=
  e ← load l; store l (mkEndpoint (m_Type e) s).

(** The storage of an object is reserved before its member initialisers run;
    [m_Type] is not read before the initialiser writes it, and every helper
    below writes a union member on every path. *)
Definition alloc (l : loc) : M unit :=
  store l (mkEndpoint Type_Unspecified Indeterminate).

(** [Type Copy(const Endpoint& other)] *)
Definition Copy (this other : loc) : M N :=
  ty ← get_m_Type other;
  if ty =? Type_IP then
    v ← read_m_IPEndpoint other;
    write_Storage this (m_IPEndpoint v);;
    mret ty
  else if ty =? Type_BTH then
    v ← read_m_BTHEndpoint other;
    write_Storage this (m_BTHEndpoint v);;
    mret ty
  else if ty =? Type_Unspecified then
    write_Storage this (m_Dummy 0);;
    mret Type_Unspecified
  else fail AssertionFailure.

(** [Type Move(Endpoint&& other)].  The concrete endpoints are plain values
    of scalars: moving one out of [other] leaves the bytes of [other] as they
    were. *)
Definition Move (this other : loc) : M N :=
  ty ← exchange_m_Type other Type_Unspecified;
  if ty =? Type_IP then
    v ← read_m_IPEndpoint other;
    write_Storage this (m_IPEndpoint v);;
    mret ty
  else if ty =? Type_BTH then
    v ← read_m_BTHEndpoint other;
    write_Storage this (m_BTHEndpoint v);;
    mret ty
  else if ty =? Type_Unspecified then
    write_Storage this (m_Dummy 0);;
    mret Type_Unspecified
  else fail AssertionFailure.

(** [Type CopyOrMove(T&& other)] for [T = IPEndpoint] *)
Definition CopyOrMove_IP (this : loc) (other : IPEndpoint.t) : M N :=
  write_Storage this (m_IPEndpoint other);;
  v ← read_m_IPEndpoint this;
  match IPEndpoint.GetProtocol v with
  | TCP | UDP | ICMP => mret Type_IP
  | Unspecified =>
      write_Storage this (m_Dummy 0);;
      mret Type_Unspecified
  | _ => fail AssertionFailure
  end.

(** [Type CopyOrMove(T&& other)] for [T = BTHEndpoint] *)
Definition CopyOrMove_BTH (this : loc) (other : BTHEndpoint.t) : M N :=
  write_Storage this (m_BTHEndpoint other);;
  v ← read_m_BTHEndpoint this;
  match BTHEndpoint.GetProtocol v with
  | RFCOMM => mret Type_BTH
  | Unspecified =>
      write_Storage this (m_Dummy 0);;
      mret Type_Unspecified
  | _ => fail AssertionFailure
  end.

(** [Endpoint()] *)
Definition ctor_default (this : loc) : M unit :=
  store this (mkEndpoint Type_Unspecified (m_Dummy 0)).

(** [Endpoint(const Endpoint& other)] *)
Definition ctor_copy (this other : loc) : M unit :=
  alloc this;; ty ← Copy this other; set_m_Type this ty.

(** [Endpoint(Endpoint&& other)] *)
Definition ctor_move (this other : loc) : M unit :=
  alloc this;; ty ← Move this other; set_m_Type this ty.

(** [Endpoint(T&& endpoint)] for [T = IPEndpoint] *)
Definition ctor_IP (this : loc) (endpoint : IPEndpoint.t) : M unit :=
  alloc this;; ty ← CopyOrMove_IP this endpoint; set_m_Type this ty.

(** [Endpoint(T&& endpoint)] for [T = BTHEndpoint] *)
Definition ctor_BTH (this : loc) (endpoint : BTHEndpoint.t) : M unit :=
  alloc this;; ty ← CopyOrMove_BTH this endpoint; set_m_Type this ty.

(** [Endpoint& operator=(const Endpoint& other)] *)
Definition assign_copy (this other : loc) : M unit :=
  if decide (this = other) then mret tt
  else ty ← Copy this other; set_m_Type this ty.

(** [Endpoint& operator=(Endpoint&& other)] *)
Definition assign_move (this other : loc) : M unit :=
  if decide (this = other) then mret tt
  else ty ← Move this other; set_m_Type this ty.

(** [~Endpoint()] *)
Definition dtor (this : loc) : M unit := λ h, Ok (tt, delete this h).

(** ** Programs over the public operations *)

Inductive Op : Type :=
| DefaultCtor (this : loc)
| IPCtor (this : loc) (endpoint : IPEndpoint.t)
| BTHCtor (this : loc) (endpoint : BTHEndpoint.t)
| CopyCtor (this other : loc)
| MoveCtor (this other : loc)
| CopyAssign (this other : loc)
| MoveAssign (this other : loc)
| Dtor (this : loc).

Definition run (o : Op) : M unit :=
  match o with
  | DefaultCtor this => ctor_default this
  | IPCtor this e => ctor_IP this e
  | BTHCtor this e => ctor_BTH this e
  | CopyCtor this other => ctor_copy this other
  | MoveCtor this other => ctor_move this other
  | CopyAssign this other => assign_copy this other
  | MoveAssign this other => assign_move this other
  | Dtor this => dtor this
  end.

Definition live (l : loc) (h : Store) : bool := bool_decide (is_Some (h !! l)).

(** A constructor runs on storage that holds no object yet; every other
    operand is an object that exists. *)
Definition enabled (o : Op) (h : Store) : bool :=
  match o with
  | DefaultCtor this | IPCtor this _ | BTHCtor this _ => negb (live this h)
  | CopyCtor this other | MoveCtor this other =>
      negb (live this h) && live other h
  | CopyAssign this other | MoveAssign this other =>
      live this h && live other h
  | Dtor this => live this h
  end.

Inductive reachable : Store → Prop :=
| reachable_empty : reachable ∅
| reachable_step (h h' : Store) (o : Op) :
    reachable h → enabled o h = true → run o h = Ok (tt, h') → reachable h'.

(** One statement of a program: the operation, if it respects the life time
    of its operands. *)
Definition step (o : Op) : M unit := λ h,
  if enabled o h then run o h else Err Misuse.

(** Running a list of operations, stopping at the first fault. *)
Fixpoint run_all (os : list Op) : M unit :=
  match os with
  | [] => mret tt
  | o :: os' => step o;; run_all os'
  end.

(** ** The representation invariant *)

(** The discriminant names the active union member, and the member's protocol
    belongs to the discriminant's family. *)
Definition consistent (e : Endpoint) : bool :=
  if m_Type e =? Type_IP then
    match m_Storage e with
    | m_IPEndpoint v => IPEndpoint.valid_protocol (IPEndpoint.protocol v)
    | _ => false
    end
  else if m_Type e =? Type_BTH then
    match m_Storage e with
    | m_BTHEndpoint v => BTHEndpoint.valid_protocol (BTHEndpoint.protocol v)
    | _ => false
    end
  else m_Type e =? Type_Unspecified.

Definition store_consistent (h : Store) : Prop :=
  ∀ l e, h !! l = Some e → consistent e = true.

(** What an object holds after it was copied or moved from [src]. *)
Definition received (src : Endpoint) : Endpoint :=
  if (m_Type src =? Type_IP) || (m_Type src =? Type_BTH) then src
  else mkEndpoint Type_Unspecified (m_Dummy 0).

(** What is left of [src] after it was moved from. *)
Definition moved_from (src : Endpoint) : Endpoint :=
  mkEndpoint Type_Unspecified (m_Storage src).

(** What the converting constructors store, by the protocol of their
    argument. *)
Definition converted_IP (v : IPEndpoint.t) : result Endpoint :=
  match IPEndpoint.protocol v with
  | TCP | UDP | ICMP => Ok (mkEndpoint Type_IP (m_IPEndpoint v))
  | Unspecified => Ok (mkEndpoint Type_Unspecified (m_Dummy 0))
  | RFCOMM => Err AssertionFailure
  end.

Definition converted_BTH (v : BTHEndpoint.t) : result Endpoint :=
  match BTHEndpoint.protocol v with
  | RFCOMM => Ok (mkEndpoint Type_BTH (m_BTHEndpoint v))
  | Unspecified => Ok (mkEndpoint Type_Unspecified (m_Dummy 0))
  | TCP | UDP | ICMP => Err AssertionFailure
  end.

(** [dst = src] where [dst] exists, [Endpoint dst(src)] where it does not. *)
Definition copy_into (dst src : loc) : M unit := λ h,
  if live dst h then assign_copy dst src h else ctor_copy dst src h.

(** [dst = std::move(src)] where [dst] exists, [Endpoint dst(std::move(src))]
    where it does not. *)
Definition move_into (dst src : loc) : M unit := λ h,
  if live dst h then assign_move dst src h else ctor_move dst src h.

(** Two objects that no const member function tells apart. *)
Definition same_value (x y : Endpoint) : Prop :=
  GetType x = GetType y
  ∧ GetIPEndpoint x = GetIPEndpoint y
  ∧ GetBTHEndpoint x = GetBTHEndpoint y
  ∧ GetRelayPort x = GetRelayPort y
  ∧ GetRelayHop x = GetRelayHop y
  ∧ op_eq x y = Ok true.

(** The invariant as the accessors show it: the discriminant names the family
    of the payload's protocol. *)
Definition type_matches_payload (e : Endpoint) : Prop :=
  (GetType e = Type_IP →
     ∃ v, GetIPEndpoint e = Ok v
          ∧ (IPEndpoint.GetProtocol v = TCP ∨ IPEndpoint.GetProtocol v = UDP
             ∨ IPEndpoint.GetProtocol v = ICMP))
  ∧ (GetType e = Type_BTH →
       ∃ v, GetBTHEndpoint e = Ok v ∧ BTHEndpoint.GetProtocol v = RFCOMM).

(** ** Handing an Endpoint on

    The four ways in which one object gives its value to the next: copy or
    move construction of a new object, copy or move assignment to a
    default-constructed one. *)
Inductive Transfer : Type :=
| ByCopyCtor | ByMoveCtor | ByCopyAssign | ByMoveAssign.

Definition transfer (k : Transfer) (dst src : loc) : list Op :=
  match k with
  | ByCopyCtor => [CopyCtor dst src]
  | ByMoveCtor => [MoveCtor dst src]
  | ByCopyAssign => [DefaultCtor dst; CopyAssign dst src]
  | ByMoveAssign => [DefaultCtor dst; MoveAssign dst src]
  end.

(** A chain of transfers: the object at [src] hands on to the one at
    [src + 1], which hands on to the one at [src + 2], and so on. *)
Fixpoint hand_over (ks : list Transfer) (src : loc) : list Op :=
  match ks with
  | [] => []
  | k :: ks' => transfer k (Pos.succ src) src ++ hand_over ks' (Pos.succ src)
  end.

Fixpoint last_holder (ks : list Transfer) (src : loc) : loc :=
  match ks with
  | [] => src
  | _ :: ks' => last_holder ks' (Pos.succ src)
  end.

(** ** Sample values *)

(** 10.0.0.5:9000 over TCP, circuit 42, hop 2. *)
Definition sample_ip : IPEndpoint.t :=
  IPEndpoint.make TCP (IPv4 167772165) 9000 42 2.

Definition sample_bth : BTHEndpoint.t :=
  BTHEndpoint.make RFCOMM 1108152157446 5 7 1.

Definition sample_program : list Op :=
  [IPCtor 1 sample_ip; BTHCtor 2 sample_bth; DefaultCtor 3; CopyCtor 4 1].

Definition final_store (os : list Op) : Store :=
  match run_all os ∅ with
  | Ok (_, h) => h
  | Err _ => ∅
  end.

Definition sample_store : Store := final_store sample_program.

(** * Proofs *)

(** ** Stepping through the store monad *)

Section stepping.
Context {A B : Type}.
Implicit Types (h : Store) (l : loc) (e : Endpoint).

Lemma bind_Ok (m : M A) (f : A → M B) h a h' :
  m h = Ok (a, h') → (m ≫= f) h = f a h'.
Proof. intros E. unfold mbind, M_bind. now rewrite E. Qed.

End stepping.

Section primitives.
Implicit Types (h : Store) (l : loc) (e : Endpoint).

Lemma load_Some l e h : h !! l = Some e → load l h = Ok (e, h).
Proof. intros E. unfold load. now rewrite E. Qed.

Lemma get_m_Type_Some l e h :
  h !! l = Some e → get_m_Type l h = Ok (m_Type e, h).
Proof.
  intros E. unfold get_m_Type. now rewrite (bind_Ok _ _ _ _ _ (load_Some _ _ _ E)).
Qed.

Lemma set_m_Type_Some l e ty h :
  h !! l = Some e →
  set_m_Type l ty h = Ok (tt, <[l := mkEndpoint ty (m_Storage e)]> h).
Proof.
  intros E. unfold set_m_Type. now rewrite (bind_Ok _ _ _ _ _ (load_Some _ _ _ E)).
Qed.

Lemma exchange_m_Type_Some l e ty h :
  h !! l = Some e →
  exchange_m_Type l ty h
  = Ok (m_Type e, <[l := mkEndpoint ty (m_Storage e)]> h).
Proof.
  intros E. unfold exchange_m_Type.
  rewrite (bind_Ok _ _ _ _ _ (get_m_Type_Some _ _ _ E)).
  now rewrite (bind_Ok _ _ _ _ _ (set_m_Type_Some _ _ ty _ E)).
Qed.

Lemma write_Storage_Some l e s h :
  h !! l = Some e →
  write_Storage l s h = Ok (tt, <[l := mkEndpoint (m_Type e) s]> h).
Proof.
  intros E. unfold write_Storage.
  now rewrite (bind_Ok _ _ _ _ _ (load_Some _ _ _ E)).
Qed.

Lemma read_m_IPEndpoint_Some l e v h :
  h !! l = Some e → m_Storage e = m_IPEndpoint v →
  read_m_IPEndpoint l h = Ok (v, h).
Proof.
  intros E S. unfold read_m_IPEndpoint.
  rewrite (bind_Ok _ _ _ _ _ (load_Some _ _ _ E)). now rewrite S.
Qed.

Lemma read_m_BTHEndpoint_Some l e v h :
  h !! l = Some e → m_Storage e = m_BTHEndpoint v →
  read_m_BTHEndpoint l h = Ok (v, h).
Proof.
  intros E S. unfold read_m_BTHEndpoint.
  rewrite (bind_Ok _ _ _ _ _ (load_Some _ _ _ E)). now rewrite S.
Qed.

End primitives.

(** ** The shape of a consistent object *)

Lemma consistent_cases (e : Endpoint) :
  consistent e = true →
  (∃ v, e = mkEndpoint Type_IP (m_IPEndpoint v)
        ∧ IPEndpoint.valid_protocol (IPEndpoint.protocol v) = true)
  ∨ (∃ v, e = mkEndpoint Type_BTH (m_BTHEndpoint v)
          ∧ BTHEndpoint.valid_protocol (BTHEndpoint.protocol v) = true)
  ∨ (m_Type e = Type_Unspecified).
Proof.
  destruct e as [ty st]. unfold consistent. simpl.
  destruct (N.eqb_spec ty Type_IP) as [-> | nIP].
  { destruct st; try discriminate. intros V. left. eauto. }
  destruct (N.eqb_spec ty Type_BTH) as [-> | nBTH].
  { destruct st; try discriminate. intros V. right. left. eauto. }
  intros U. right. right. now apply N.eqb_eq.
Qed.

(** ** What the copy and move helpers compute *)

Section helpers.
Implicit Types (h : Store) (this other : loc) (e : Endpoint).

Lemma received_eta e :
  mkEndpoint (m_Type (received e)) (m_Storage (received e)) = received e.
Proof. now destruct (received e). Qed.

Lemma received_consistent e :
  consistent e = true → consistent (received e) = true.
Proof.
  intros C. destruct (consistent_cases e C) as [(v & -> & V) | [(v & -> & V) | U]];
    try assumption.
  unfold received. rewrite U. reflexivity.
Qed.

Lemma Copy_Some this other et eo h :
  h !! this = Some et → h !! other = Some eo → consistent eo = true →
  Copy this other h
  = Ok (m_Type (received eo),
        <[this := mkEndpoint (m_Type et) (m_Storage (received eo))]> h).
Proof.
  intros Et Eo C. unfold Copy.
  rewrite (bind_Ok _ _ _ _ _ (get_m_Type_Some _ _ _ Eo)).
  destruct (consistent_cases eo C) as [(v & -> & V) | [(v & -> & V) | U]]; simpl.
  - rewrite (bind_Ok _ _ _ _ _ (read_m_IPEndpoint_Some _ _ v _ Eo eq_refl)).
    now rewrite (bind_Ok _ _ _ _ _ (write_Storage_Some _ _ _ _ Et)).
  - rewrite (bind_Ok _ _ _ _ _ (read_m_BTHEndpoint_Some _ _ v _ Eo eq_refl)).
    now rewrite (bind_Ok _ _ _ _ _ (write_Storage_Some _ _ _ _ Et)).
  - unfold received. rewrite U. simpl.
    now rewrite (bind_Ok _ _ _ _ _ (write_Storage_Some _ _ _ _ Et)).
Qed.

Lemma Move_Some this other et eo h :
  this ≠ other →
  h !! this = Some et → h !! other = Some eo → consistent eo = true →
  Move this other h
  = Ok (m_Type (received eo),
        <[this := mkEndpoint (m_Type et) (m_Storage (received eo))]>
          (<[other := moved_from eo]> h)).
Proof.
  intros Ne Et Eo C. unfold Move.
  rewrite (bind_Ok _ _ _ _ _ (exchange_m_Type_Some _ _ Type_Unspecified _ Eo)).
  fold (moved_from eo).
  assert (Eo' : <[other := moved_from eo]> h !! other = Some (moved_from eo))
    by apply lookup_insert_eq.
  assert (Et' : <[other := moved_from eo]> h !! this = Some et)
    by now rewrite lookup_insert_ne.
  destruct (consistent_cases eo C) as [(v & -> & V) | [(v & -> & V) | U]]; simpl.
  - rewrite (bind_Ok _ _ _ _ _ (read_m_IPEndpoint_Some _ _ v _ Eo' eq_refl)).
    now rewrite (bind_Ok _ _ _ _ _ (write_Storage_Some _ _ _ _ Et')).
  - rewrite (bind_Ok _ _ _ _ _ (read_m_BTHEndpoint_Some _ _ v _ Eo' eq_refl)).
    now rewrite (bind_Ok _ _ _ _ _ (write_Storage_Some _ _ _ _ Et')).
  - unfold received. rewrite U. simpl.
    now rewrite (bind_Ok _ _ _ _ _ (write_Storage_Some _ _ _ _ Et')).
Qed.

(** A move of an object onto itself, which the guards of the public
    operations exclude, would not fault either. *)
Lemma Move_self_Ok this e h :
  h !! this = Some e → consistent e = true → is_Ok (Move this this h).
Proof.
  intros E C. unfold Move.
  rewrite (bind_Ok _ _ _ _ _ (exchange_m_Type_Some _ _ Type_Unspecified _ E)).
  fold (moved_from e).
  assert (E' : <[this := moved_from e]> h !! this = Some (moved_from e))
    by apply lookup_insert_eq.
  destruct (consistent_cases e C) as [(v & -> & V) | [(v & -> & V) | U]]; simpl.
  - rewrite (bind_Ok _ _ _ _ _ (read_m_IPEndpoint_Some _ _ v _ E' eq_refl)).
    rewrite (bind_Ok _ _ _ _ _ (write_Storage_Some _ _ _ _ E')). now eexists.
  - rewrite (bind_Ok _ _ _ _ _ (read_m_BTHEndpoint_Some _ _ v _ E' eq_refl)).
    rewrite (bind_Ok _ _ _ _ _ (write_Storage_Some _ _ _ _ E')). now eexists.
  - rewrite U. simpl.
    rewrite (bind_Ok _ _ _ _ _ (write_Storage_Some _ _ _ _ E')). now eexists.
Qed.

Lemma assign_copy_ne this other et eo h :
  this ≠ other →
  h !! this = Some et → h !! other = Some eo → consistent eo = true →
  assign_copy this other h = Ok (tt, <[this := received eo]> h).
Proof.
  intros Ne Et Eo C. unfold assign_copy. rewrite decide_False by assumption.
  rewrite (bind_Ok _ _ _ _ _ (Copy_Some _ _ _ _ _ Et Eo C)).
  erewrite set_m_Type_Some by apply lookup_insert_eq. simpl.
  now rewrite insert_insert_eq, received_eta.
Qed.

Lemma assign_move_ne this other et eo h :
  this ≠ other →
  h !! this = Some et → h !! other = Some eo → consistent eo = true →
  assign_move this other h
  = Ok (tt, <[this := received eo]> (<[other := moved_from eo]> h)).
Proof.
  intros Ne Et Eo C. unfold assign_move. rewrite decide_False by assumption.
  rewrite (bind_Ok _ _ _ _ _ (Move_Some _ _ _ _ _ Ne Et Eo C)).
  erewrite set_m_Type_Some by apply lookup_insert_eq. simpl.
  now rewrite insert_insert_eq, received_eta.
Qed.

Lemma ctor_copy_fresh this other eo h :
  h !! this = None → h !! other = Some eo → consistent eo = true →
  ctor_copy this other h = Ok (tt, <[this := received eo]> h).
Proof.
  intros Et Eo C. unfold ctor_copy, alloc.
  assert (Ne : this ≠ other) by congruence.
  rewrite (bind_Ok _ _ _ tt _ eq_refl).
  erewrite (bind_Ok (Copy this other)).
  2:{ eapply Copy_Some; [apply lookup_insert_eq | | exact C].
      rewrite lookup_insert_ne by exact Ne. exact Eo. }
  erewrite set_m_Type_Some by apply lookup_insert_eq. simpl.
  now rewrite !insert_insert_eq, received_eta.
Qed.

Lemma ctor_move_fresh this other eo h :
  h !! this = None → h !! other = Some eo → consistent eo = true →
  ctor_move this other h
  = Ok (tt, <[this := received eo]> (<[other := moved_from eo]> h)).
Proof.
  intros Et Eo C. unfold ctor_move, alloc.
  assert (Ne : this ≠ other) by congruence.
  rewrite (bind_Ok _ _ _ tt _ eq_refl).
  erewrite (bind_Ok (Move this other)).
  2:{ eapply Move_Some; [exact Ne | apply lookup_insert_eq | | exact C].
      rewrite lookup_insert_ne by exact Ne. exact Eo. }
  erewrite set_m_Type_Some by apply lookup_insert_eq. simpl.
  rewrite insert_insert_eq, received_eta.
  rewrite (insert_insert_ne _ other this) by congruence.
  now rewrite insert_insert_eq.
Qed.

Lemma ctor_IP_eq this v h :
  ctor_IP this v h
  = match converted_IP v with
    | Ok e => Ok (tt, <[this := e]> h)
    | Err f => Err f
    end.
Proof.
  unfold ctor_IP, alloc, CopyOrMove_IP, converted_IP, IPEndpoint.GetProtocol.
  rewrite (bind_Ok _ _ _ tt _ eq_refl).
  unfold mbind at 1, M_bind at 1.
  erewrite (bind_Ok (write_Storage _ _)) by (apply write_Storage_Some, lookup_insert_eq).
  erewrite (bind_Ok (read_m_IPEndpoint _))
    by (eapply read_m_IPEndpoint_Some; [apply lookup_insert_eq | reflexivity]).
  destruct (IPEndpoint.protocol v); simpl; try reflexivity.
  - erewrite (bind_Ok (write_Storage _ _)) by (apply write_Storage_Some, lookup_insert_eq).
    simpl. erewrite set_m_Type_Some by apply lookup_insert_eq.
    simpl. now rewrite !insert_insert_eq.
  - erewrite set_m_Type_Some by apply lookup_insert_eq. simpl. now rewrite !insert_insert_eq.
  - erewrite set_m_Type_Some by apply lookup_insert_eq. simpl. now rewrite !insert_insert_eq.
  - erewrite set_m_Type_Some by apply lookup_insert_eq. simpl. now rewrite !insert_insert_eq.
Qed.

End helpers.

Lemma ctor_BTH_eq (this : loc) (v : BTHEndpoint.t) (h : Store) :
  ctor_BTH this v h
  = match converted_BTH v with
    | Ok e => Ok (tt, <[this := e]> h)
    | Err f => Err f
    end.
Proof.
  unfold ctor_BTH, alloc, CopyOrMove_BTH, converted_BTH, BTHEndpoint.GetProtocol.
  rewrite (bind_Ok _ _ _ tt _ eq_refl).
  unfold mbind at 1, M_bind at 1.
  erewrite (bind_Ok (write_Storage _ _)) by (apply write_Storage_Some, lookup_insert_eq).
  erewrite (bind_Ok (read_m_BTHEndpoint _))
    by (eapply read_m_BTHEndpoint_Some; [apply lookup_insert_eq | reflexivity]).
  destruct (BTHEndpoint.protocol v); simpl; try reflexivity.
  - erewrite (bind_Ok (write_Storage _ _)) by (apply write_Storage_Some, lookup_insert_eq).
    simpl. erewrite set_m_Type_Some by apply lookup_insert_eq.
    simpl. now rewrite !insert_insert_eq.
  - erewrite set_m_Type_Some by apply lookup_insert_eq. simpl. now rewrite !insert_insert_eq.
Qed.

Lemma converted_IP_consistent (v : IPEndpoint.t) (e : Endpoint) :
  converted_IP v = Ok e → consistent e = true.
Proof.
  unfold converted_IP. destruct (IPEndpoint.protocol v) eqn:P;
    intros [= <-]; unfold consistent; simpl; now rewrite ?P.
Qed.

Lemma converted_BTH_consistent (v : BTHEndpoint.t) (e : Endpoint) :
  converted_BTH v = Ok e → consistent e = true.
Proof.
  unfold converted_BTH. destruct (BTHEndpoint.protocol v) eqn:P;
    intros [= <-]; unfold consistent; simpl; now rewrite ?P.
Qed.

(** ** The invariant holds in every reachable store *)

Section invariant.
Implicit Types (h : Store) (l : loc) (e : Endpoint).

Lemma live_true l h : live l h = true ↔ ∃ e, h !! l = Some e.
Proof. unfold live. rewrite bool_decide_eq_true. reflexivity. Qed.

Lemma live_false l h : negb (live l h) = true ↔ h !! l = None.
Proof.
  unfold live. rewrite negb_true_iff, bool_decide_eq_false.
  now rewrite eq_None_not_Some.
Qed.

Lemma store_consistent_empty : store_consistent ∅.
Proof. intros l e. now rewrite lookup_empty. Qed.

Lemma store_consistent_insert l e h :
  store_consistent h → consistent e = true → store_consistent (<[l := e]> h).
Proof.
  intros H C l' e'. destruct (decide (l = l')) as [<- | Ne].
  - rewrite lookup_insert_eq. now intros [= <-].
  - rewrite lookup_insert_ne by assumption. apply H.
Qed.

Lemma store_consistent_delete l h :
  store_consistent h → store_consistent (delete l h).
Proof.
  intros H l' e'. destruct (decide (l = l')) as [<- | Ne].
  - now rewrite lookup_delete_eq.
  - rewrite lookup_delete_ne by assumption. apply H.
Qed.

(** Every public operation preserves the invariant. *)
Lemma run_consistent (o : Op) h h' :
  store_consistent h → enabled o h = true → run o h = Ok (tt, h') →
  store_consistent h'.
Proof.
  intros H En R. destruct o as [this | this v | this v | this other | this other
                               | this other | this other | this]; simpl in *.
  - injection R as <-. now apply store_consistent_insert.
  - rewrite ctor_IP_eq in R. destruct (converted_IP v) as [e | f] eqn:Cv; [| discriminate].
    injection R as <-. apply store_consistent_insert; [assumption |].
    eapply converted_IP_consistent, Cv.
  - rewrite ctor_BTH_eq in R. destruct (converted_BTH v) as [e | f] eqn:Cv; [| discriminate].
    injection R as <-. apply store_consistent_insert; [assumption |].
    eapply converted_BTH_consistent, Cv.
  - apply andb_true_iff in En as [Ft Lo].
    apply live_false in Ft. apply live_true in Lo as [eo Eo].
    rewrite (ctor_copy_fresh _ _ _ _ Ft Eo (H _ _ Eo)) in R. injection R as <-.
    apply store_consistent_insert; [assumption |].
    apply received_consistent, (H _ _ Eo).
  - apply andb_true_iff in En as [Ft Lo].
    apply live_false in Ft. apply live_true in Lo as [eo Eo].
    rewrite (ctor_move_fresh _ _ _ _ Ft Eo (H _ _ Eo)) in R. injection R as <-.
    apply store_consistent_insert; [apply store_consistent_insert |];
      [assumption | reflexivity |].
    apply received_consistent, (H _ _ Eo).
  - apply andb_true_iff in En as [Lt Lo].
    apply live_true in Lt as [et Et]. apply live_true in Lo as [eo Eo].
    destruct (decide (this = other)) as [-> | Ne].
    + unfold assign_copy in R. rewrite decide_True in R by reflexivity.
      now injection R as <-.
    + rewrite (assign_copy_ne _ _ _ _ _ Ne Et Eo (H _ _ Eo)) in R. injection R as <-.
      apply store_consistent_insert; [assumption |].
      apply received_consistent, (H _ _ Eo).
  - apply andb_true_iff in En as [Lt Lo].
    apply live_true in Lt as [et Et]. apply live_true in Lo as [eo Eo].
    destruct (decide (this = other)) as [-> | Ne].
    + unfold assign_move in R. rewrite decide_True in R by reflexivity.
      now injection R as <-.
    + rewrite (assign_move_ne _ _ _ _ _ Ne Et Eo (H _ _ Eo)) in R. injection R as <-.
      apply store_consistent_insert; [apply store_consistent_insert |];
        [assumption | reflexivity |].
      apply received_consistent, (H _ _ Eo).
  - unfold dtor in R. injection R as <-. now apply store_consistent_delete.
Qed.

Lemma reachable_consistent h : reachable h → store_consistent h.
Proof.
  induction 1 as [| h h' o _ IH En R].
  - apply store_consistent_empty.
  - eapply run_consistent; eassumption.
Qed.

Lemma reachable_run_all (os : list Op) h h' :
  reachable h → run_all os h = Ok (tt, h') → reachable h'.
Proof.
  revert h. induction os as [| o os IH]; intros h Rh R; simpl in R.
  - now injection R as <-.
  - unfold mbind, M_bind, step in R.
    destruct (enabled o h) eqn:En; [| discriminate].
    destruct (run o h) as [[[] h1] | f] eqn:Ro; [| discriminate].
    eapply IH; [| exact R]. eapply reachable_step; eassumption.
Qed.

End invariant.

Lemma sample_store_reachable : reachable sample_store.
Proof.
  apply (reachable_run_all sample_program ∅); [apply reachable_empty |].
  vm_compute. reflexivity.
Defined.

(** ** Facts about single objects *)

Section values.
Implicit Types (e a b : Endpoint).

Lemma IPEndpoint_eqb_eq (x y : IPEndpoint.t) :
  IPEndpoint.eqb x y = true ↔ x = y.
Proof.
  unfold IPEndpoint.eqb. rewrite !andb_true_iff, !bool_decide_eq_true, !N.eqb_eq.
  destruct x, y; simpl. split.
  - intros [[[[-> ->] ->] ->] ->]. reflexivity.
  - intros [= -> -> -> -> ->]. repeat split.
Qed.

Lemma BTHEndpoint_eqb_eq (x y : BTHEndpoint.t) :
  BTHEndpoint.eqb x y = true ↔ x = y.
Proof.
  unfold BTHEndpoint.eqb. rewrite !andb_true_iff, !bool_decide_eq_true, !N.eqb_eq.
  destruct x, y; simpl. split.
  - intros [[[[-> ->] ->] ->] ->]. reflexivity.
  - intros [= -> -> -> -> ->]. repeat split.
Qed.

Lemma IPEndpoint_eqb_refl (x : IPEndpoint.t) : IPEndpoint.eqb x x = true.
Proof. now apply IPEndpoint_eqb_eq. Qed.

Lemma BTHEndpoint_eqb_refl (x : BTHEndpoint.t) : BTHEndpoint.eqb x x = true.
Proof. now apply BTHEndpoint_eqb_eq. Qed.

Lemma IP_valid_protocol_cases (p : Protocol) :
  IPEndpoint.valid_protocol p = true ↔ p = TCP ∨ p = UDP ∨ p = ICMP.
Proof. destruct p; simpl; intuition discriminate. Qed.

Lemma BTH_valid_protocol_cases (p : Protocol) :
  BTHEndpoint.valid_protocol p = true ↔ p = RFCOMM.
Proof. destruct p; simpl; intuition discriminate. Qed.

Lemma converted_IP_valid (v : IPEndpoint.t) :
  IPEndpoint.valid_protocol (IPEndpoint.GetProtocol v) = true →
  converted_IP v = Ok (mkEndpoint Type_IP (m_IPEndpoint v)).
Proof.
  unfold converted_IP, IPEndpoint.GetProtocol.
  now destruct (IPEndpoint.protocol v).
Qed.

Lemma converted_BTH_valid (v : BTHEndpoint.t) :
  BTHEndpoint.valid_protocol (BTHEndpoint.GetProtocol v) = true →
  converted_BTH v = Ok (mkEndpoint Type_BTH (m_BTHEndpoint v)).
Proof.
  unfold converted_BTH, BTHEndpoint.GetProtocol.
  now destruct (BTHEndpoint.protocol v).
Qed.

(** The discriminant of a consistent object is one of the three enumerators. *)
Lemma consistent_Type e :
  consistent e = true →
  GetType e = Type_Unspecified ∨ GetType e = Type_IP ∨ GetType e = Type_BTH.
Proof.
  intros C. destruct (consistent_cases e C) as [(v & -> & V) | [(v & -> & V) | U]];
    auto.
Qed.

Lemma GetRelayPort_Ok e : consistent e = true → is_Ok (GetRelayPort e).
Proof.
  intros C. destruct (consistent_cases e C) as [(v & -> & V) | [(v & -> & V) | U]].
  - now eexists.
  - now eexists.
  - unfold GetRelayPort. rewrite U. now eexists.
Qed.

Lemma GetRelayHop_Ok e : consistent e = true → is_Ok (GetRelayHop e).
Proof.
  intros C. destruct (consistent_cases e C) as [(v & -> & V) | [(v & -> & V) | U]].
  - now eexists.
  - now eexists.
  - unfold GetRelayHop. rewrite U. now eexists.
Qed.

Lemma GetRelayPort_Unspecified e :
  GetType e = Type_Unspecified → GetRelayPort e = Ok 0.
Proof. unfold GetType, GetRelayPort. now intros ->. Qed.

Lemma GetRelayHop_Unspecified e :
  GetType e = Type_Unspecified → GetRelayHop e = Ok 0.
Proof. unfold GetType, GetRelayHop. now intros ->. Qed.

Lemma op_eq_Unspecified a b :
  GetType a = Type_Unspecified → GetType b = Type_Unspecified →
  op_eq a b = Ok true.
Proof. unfold GetType, op_eq. now intros -> ->. Qed.

Lemma op_eq_refl e : consistent e = true → op_eq e e = Ok true.
Proof.
  intros C. destruct (consistent_cases e C) as [(v & -> & V) | [(v & -> & V) | U]].
  - unfold op_eq. simpl. now rewrite IPEndpoint_eqb_refl.
  - unfold op_eq. simpl. now rewrite BTHEndpoint_eqb_refl.
  - now apply op_eq_Unspecified.
Qed.

(** A copy, or the target of a move, is indistinguishable from its source. *)
Lemma same_value_received e : consistent e = true → same_value (received e) e.
Proof.
  intros C. destruct (consistent_cases e C) as [(v & -> & V) | [(v & -> & V) | U]].
  - repeat split. now apply (op_eq_refl (mkEndpoint Type_IP (m_IPEndpoint v))).
  - repeat split. now apply (op_eq_refl (mkEndpoint Type_BTH (m_BTHEndpoint v))).
  - unfold received. rewrite U. simpl.
    unfold same_value, GetType, GetIPEndpoint, GetBTHEndpoint, GetRelayPort,
      GetRelayHop, op_eq. simpl. rewrite U. simpl. repeat split.
Qed.

End values.

(** * The claims *)

(** C1.  In every store reachable through the public operations (default
    construction, construction from a concrete endpoint, copy and move
    construction and assignment, destruction), an object whose [GetType()] is
    IP stores an IP payload whose protocol is TCP, UDP or ICMP, and an object
    whose [GetType()] is BTH stores a BTH payload whose protocol is RFCOMM;
    and the same holds again after any further public operation. *)
Theorem C1_type_matches_payload_protocol (h : Store) (l : loc) (e : Endpoint) :
  reachable h → h !! l = Some e →
  type_matches_payload e
  ∧ (∀ o h' l' e', enabled o h = true → run o h = Ok (tt, h') →
       h' !! l' = Some e' → type_matches_payload e').
Proof.
  assert (G : ∀ h l e, reachable h → h !! l = Some e → type_matches_payload e).
  { clear. intros h l e R E. pose proof (reachable_consistent h R l e E) as C.
    destruct (consistent_cases e C) as [(v & -> & V) | [(v & -> & V) | U]].
    - split; [| discriminate]. intros _. exists v. split; [reflexivity |].
      now apply IP_valid_protocol_cases.
    - split; [discriminate |]. intros _. exists v. split; [reflexivity |].
      now apply BTH_valid_protocol_cases.
    - unfold type_matches_payload, GetType. rewrite U. split; discriminate. }
  intros R E. split; [now apply (G h l) |].
  intros o h' l' e' En Ro E'. apply (G h' l'); [| assumption].
  eapply reachable_step; eassumption.
Qed.

Lemma C1_witness :
  type_matches_payload (mkEndpoint Type_IP (m_IPEndpoint sample_ip)).
Proof.
  refine (proj1 (C1_type_matches_payload_protocol sample_store 4
                   (mkEndpoint Type_IP (m_IPEndpoint sample_ip))
                   sample_store_reachable _)).
  vm_compute. reflexivity.
Defined.

(** C2.  Constructing an Endpoint from an IPEndpoint [v] whose protocol is
    TCP, UDP or ICMP succeeds, and the new object has [GetType() == IP] and
    [GetIPEndpoint() == v]; constructing one from a BTHEndpoint [v] whose
    protocol is RFCOMM succeeds, and the new object has [GetType() == BTH]
    and [GetBTHEndpoint() == v]. *)
Theorem C2_round_trip :
  (∀ (this : loc) (v : IPEndpoint.t) (h : Store),
     IPEndpoint.valid_protocol (IPEndpoint.GetProtocol v) = true →
     ∃ h' e, ctor_IP this v h = Ok (tt, h') ∧ h' !! this = Some e
             ∧ GetType e = Type_IP ∧ GetIPEndpoint e = Ok v
             ∧ (∀ w, GetIPEndpoint e = Ok w → IPEndpoint.eqb w v = true))
  ∧ (∀ (this : loc) (v : BTHEndpoint.t) (h : Store),
       BTHEndpoint.valid_protocol (BTHEndpoint.GetProtocol v) = true →
       ∃ h' e, ctor_BTH this v h = Ok (tt, h') ∧ h' !! this = Some e
               ∧ GetType e = Type_BTH ∧ GetBTHEndpoint e = Ok v
               ∧ (∀ w, GetBTHEndpoint e = Ok w → BTHEndpoint.eqb w v = true)).
Proof.
  split; intros this v h V.
  - exists (<[this := mkEndpoint Type_IP (m_IPEndpoint v)]> h), (mkEndpoint Type_IP (m_IPEndpoint v)).
    rewrite ctor_IP_eq, (converted_IP_valid v V), lookup_insert_eq.
    repeat split. intros w [= <-]. apply IPEndpoint_eqb_refl.
  - exists (<[this := mkEndpoint Type_BTH (m_BTHEndpoint v)]> h), (mkEndpoint Type_BTH (m_BTHEndpoint v)).
    rewrite ctor_BTH_eq, (converted_BTH_valid v V), lookup_insert_eq.
    repeat split. intros w [= <-]. apply BTHEndpoint_eqb_refl.
Qed.

Lemma C2_witness :
  ∃ h' e, ctor_IP 1 sample_ip ∅ = Ok (tt, h') ∧ h' !! 1%positive = Some e
          ∧ GetType e = Type_IP ∧ GetIPEndpoint e = Ok sample_ip
          ∧ (∀ w, GetIPEndpoint e = Ok w → IPEndpoint.eqb w sample_ip = true).
Proof. apply (proj1 C2_round_trip 1%positive sample_ip ∅). reflexivity. Defined.

(** The concrete endpoints a caller can hold are the ones their validating
    constructors build. *)
Lemma IPEndpoint_make_representable p a port rport hop :
  IPEndpoint.representable (IPEndpoint.make p a port rport hop) = true.
Proof. now destruct p. Qed.

Lemma BTHEndpoint_make_representable p a port rport hop :
  BTHEndpoint.representable (BTHEndpoint.make p a port rport hop) = true.
Proof. now destruct p. Qed.

Lemma IPEndpoint_representable_made (v : IPEndpoint.t) :
  IPEndpoint.representable v = true →
  v = IPEndpoint.make (IPEndpoint.protocol v) (IPEndpoint.address v)
        (IPEndpoint.port v) (IPEndpoint.relay_port v) (IPEndpoint.relay_hop v).
Proof. destruct v as [[] ? ? ? ?]; now intros. Qed.

Lemma BTHEndpoint_representable_made (v : BTHEndpoint.t) :
  BTHEndpoint.representable v = true →
  v = BTHEndpoint.make (BTHEndpoint.protocol v) (BTHEndpoint.address v)
        (BTHEndpoint.port v) (BTHEndpoint.relay_port v) (BTHEndpoint.relay_hop v).
Proof. destruct v as [[] ? ? ? ?]; now intros. Qed.

(** C3.  Constructing an Endpoint from a concrete IPEndpoint or BTHEndpoint
    whose protocol is Unspecified, or is not in its family's set, succeeds
    without a fault and yields an object with [GetType() == Unspecified]:
    for every value a concrete endpoint can hold, and for every concrete
    endpoint built by its validating constructor with a protocol outside the
    family's set. *)
Theorem C3_invalid_protocol_degrades :
  (∀ (this : loc) (v : IPEndpoint.t) (h : Store),
     IPEndpoint.representable v = true →
     IPEndpoint.valid_protocol (IPEndpoint.GetProtocol v) = false →
     ∃ h' e, ctor_IP this v h = Ok (tt, h') ∧ h' !! this = Some e
             ∧ GetType e = Type_Unspecified)
  ∧ (∀ (this : loc) (v : BTHEndpoint.t) (h : Store),
       BTHEndpoint.representable v = true →
       BTHEndpoint.valid_protocol (BTHEndpoint.GetProtocol v) = false →
       ∃ h' e, ctor_BTH this v h = Ok (tt, h') ∧ h' !! this = Some e
               ∧ GetType e = Type_Unspecified)
  ∧ (∀ (this : loc) p a port rport hop (h : Store),
       IPEndpoint.valid_protocol p = false →
       ∃ h' e, ctor_IP this (IPEndpoint.make p a port rport hop) h = Ok (tt, h')
               ∧ h' !! this = Some e ∧ GetType e = Type_Unspecified)
  ∧ (∀ (this : loc) p a port rport hop (h : Store),
       BTHEndpoint.valid_protocol p = false →
       ∃ h' e, ctor_BTH this (BTHEndpoint.make p a port rport hop) h = Ok (tt, h')
               ∧ h' !! this = Some e ∧ GetType e = Type_Unspecified).
Proof.
  assert (IPU : ∀ (this : loc) (v : IPEndpoint.t) (h : Store),
            IPEndpoint.representable v = true →
            IPEndpoint.valid_protocol (IPEndpoint.GetProtocol v) = false →
            ∃ h' e, ctor_IP this v h = Ok (tt, h') ∧ h' !! this = Some e
                    ∧ GetType e = Type_Unspecified).
  { intros this v h Rp V. rewrite ctor_IP_eq. unfold converted_IP.
    unfold IPEndpoint.representable in Rp. unfold IPEndpoint.GetProtocol in V.
    destruct (IPEndpoint.protocol v); try discriminate.
    eexists _, _. split; [reflexivity |]. now rewrite lookup_insert_eq. }
  assert (BTHU : ∀ (this : loc) (v : BTHEndpoint.t) (h : Store),
            BTHEndpoint.representable v = true →
            BTHEndpoint.valid_protocol (BTHEndpoint.GetProtocol v) = false →
            ∃ h' e, ctor_BTH this v h = Ok (tt, h') ∧ h' !! this = Some e
                    ∧ GetType e = Type_Unspecified).
  { intros this v h Rp V. rewrite ctor_BTH_eq. unfold converted_BTH.
    unfold BTHEndpoint.representable in Rp. unfold BTHEndpoint.GetProtocol in V.
    destruct (BTHEndpoint.protocol v); try discriminate.
    eexists _, _. split; [reflexivity |]. now rewrite lookup_insert_eq. }
  split; [exact IPU |]. split; [exact BTHU |]. split.
  - intros this p a port rport hop h V.
    apply IPU; [apply IPEndpoint_make_representable |].
    unfold IPEndpoint.make, IPEndpoint.ValidateProtocol. now rewrite V.
  - intros this p a port rport hop h V.
    apply BTHU; [apply BTHEndpoint_make_representable |].
    unfold BTHEndpoint.make, BTHEndpoint.ValidateProtocol. now rewrite V.
Qed.

Lemma C3_witness :
  ∃ h' e, ctor_BTH 1 (BTHEndpoint.make TCP 1108152157446 5 7 1) ∅ = Ok (tt, h')
          ∧ h' !! 1%positive = Some e ∧ GetType e = Type_Unspecified.
Proof.
  apply (proj1 (proj2 C3_invalid_protocol_degrades)
           1%positive (BTHEndpoint.make TCP 1108152157446 5 7 1) ∅).
  - reflexivity.
  - reflexivity.
Defined.

(** ** Copying and moving between two distinct objects *)

Section transfers.
Implicit Types (h : Store) (src dst : loc) (e : Endpoint).

Lemma copy_into_ne dst src e h :
  dst ≠ src → h !! src = Some e → consistent e = true →
  copy_into dst src h = Ok (tt, <[dst := received e]> h).
Proof.
  intros Ne E C. unfold copy_into. destruct (live dst h) eqn:L.
  - apply live_true in L as [ed Ed]. eapply assign_copy_ne; eassumption.
  - apply ctor_copy_fresh; [| assumption | assumption].
    apply live_false. now rewrite L.
Qed.

Lemma move_into_ne dst src e h :
  dst ≠ src → h !! src = Some e → consistent e = true →
  move_into dst src h
  = Ok (tt, <[dst := received e]> (<[src := moved_from e]> h)).
Proof.
  intros Ne E C. unfold move_into. destruct (live dst h) eqn:L.
  - apply live_true in L as [ed Ed]. eapply assign_move_ne; eassumption.
  - apply ctor_move_fresh; [| assumption | assumption].
    apply live_false. now rewrite L.
Qed.

End transfers.

(** C4.  After [b = std::move(a)], or the move construction of [b] from [a],
    for two distinct objects of a reachable store: the operation succeeds,
    [a.GetType() == Unspecified], and [b] holds the value [a] held before:
    the same type, the same payload, the same relay coordinates, and
    [operator==] finds them equal. *)
Theorem C4_move_leaves_source_empty (h : Store) (a b : loc) (ea : Endpoint) :
  reachable h → h !! a = Some ea → b ≠ a →
  ∃ h' ea' eb',
    move_into b a h = Ok (tt, h')
    ∧ h' !! a = Some ea' ∧ h' !! b = Some eb'
    ∧ GetType ea' = Type_Unspecified
    ∧ same_value eb' ea.
Proof.
  intros R E Ne. pose proof (reachable_consistent h R a ea E) as C.
  exists (<[b := received ea]> (<[a := moved_from ea]> h)), (moved_from ea), (received ea).
  split; [now apply move_into_ne |].
  rewrite lookup_insert_ne, !lookup_insert_eq by assumption.
  repeat split; try reflexivity; now apply same_value_received.
Qed.

Lemma C4_witness :
  ∃ h' ea' eb',
    move_into 5 1 sample_store = Ok (tt, h')
    ∧ h' !! 1%positive = Some ea' ∧ h' !! 5%positive = Some eb'
    ∧ GetType ea' = Type_Unspecified
    ∧ same_value eb' (mkEndpoint Type_IP (m_IPEndpoint sample_ip)).
Proof.
  apply (C4_move_leaves_source_empty sample_store 1 5).
  - exact sample_store_reachable.
  - vm_compute. reflexivity.
  - discriminate.
Defined.

(** C5.  For two objects of a reachable store, [a == b] returns without a
    fault, and returns true exactly when both are Unspecified, or both hold
    the same IPEndpoint, or both hold the same BTHEndpoint.  In particular an
    object holding an IPEndpoint is never equal to one holding a BTHEndpoint,
    and two default-constructed objects are equal. *)
Theorem C5_equality_is_structural (h : Store) (la lb : loc) (a b : Endpoint) :
  reachable h → h !! la = Some a → h !! lb = Some b →
  (∃ r, op_eq a b = Ok r
        ∧ (r = true ↔
           (GetType a = Type_Unspecified ∧ GetType b = Type_Unspecified)
           ∨ (∃ v, GetIPEndpoint a = Ok v ∧ GetIPEndpoint b = Ok v)
           ∨ (∃ v, GetBTHEndpoint a = Ok v ∧ GetBTHEndpoint b = Ok v)))
  ∧ (GetType a = Type_IP → GetType b = Type_BTH →
       op_eq a b = Ok false ∧ op_eq b a = Ok false)
  ∧ (∀ l l' h1 h2 d d',
       ctor_default l h = Ok (tt, h1) → ctor_default l' h1 = Ok (tt, h2) →
       h2 !! l = Some d → h2 !! l' = Some d' → op_eq d d' = Ok true).
Proof.
  intros R Ea Eb.
  pose proof (reachable_consistent h R la a Ea) as Ca.
  pose proof (reachable_consistent h R lb b Eb) as Cb.
  split; [| split].
  - destruct (consistent_cases a Ca) as [(x & -> & Vx) | [(x & -> & Vx) | Ua]];
      destruct (consistent_cases b Cb) as [(y & -> & Vy) | [(y & -> & Vy) | Ub]].
    + exists (IPEndpoint.eqb x y). split; [reflexivity |].
      rewrite IPEndpoint_eqb_eq. split.
      * intros ->. right. left. now exists y.
      * intros [[T _] | [(v & [= <-] & [= <-]) | (v & [=] & _)]];
          [discriminate T | reflexivity].
    + exists false. split; [reflexivity |]. split; [discriminate |].
      intros [[T _] | [(v & _ & [=]) | (v & [=] & _)]]. discriminate T.
    + exists false. unfold op_eq, GetType, GetIPEndpoint, GetBTHEndpoint.
      simpl. rewrite Ub. simpl. split; [reflexivity |]. split; [discriminate |].
      intros [[T _] | [(v & _ & [=]) | (v & [=] & _)]]. discriminate T.
    + exists false. split; [reflexivity |]. split; [discriminate |].
      intros [[T _] | [(v & [=] & _) | (v & _ & [=])]]. discriminate T.
    + exists (BTHEndpoint.eqb x y). split; [reflexivity |].
      rewrite BTHEndpoint_eqb_eq. split.
      * intros ->. right. right. now exists y.
      * intros [[T _] | [(v & [=] & _) | (v & [= <-] & [= <-])]];
          [discriminate T | reflexivity].
    + exists false. unfold op_eq, GetType, GetIPEndpoint, GetBTHEndpoint.
      simpl. rewrite Ub. simpl. split; [reflexivity |]. split; [discriminate |].
      intros [[T _] | [(v & [=] & _) | (v & _ & [=])]]. discriminate T.
    + exists false. unfold op_eq, GetType, GetIPEndpoint, GetBTHEndpoint.
      simpl. rewrite Ua. simpl. split; [reflexivity |]. split; [discriminate |].
      intros [[_ T] | [(v & [=] & _) | (v & [=] & _)]]. discriminate T.
    + exists false. unfold op_eq, GetType, GetIPEndpoint, GetBTHEndpoint.
      simpl. rewrite Ua. simpl. split; [reflexivity |]. split; [discriminate |].
      intros [[_ T] | [(v & [=] & _) | (v & [=] & _)]]. discriminate T.
    + exists true. split; [now apply op_eq_Unspecified |].
      split; [| reflexivity]. intros _. left. now split.
  - unfold GetType, op_eq. intros -> ->. now split.
  - intros l l' h1 h2 d d' [= <-] [= <-] D D'.
    apply op_eq_Unspecified.
    + destruct (decide (l' = l)) as [-> | Ne].
      * rewrite lookup_insert_eq in D. now injection D as <-.
      * rewrite lookup_insert_ne, lookup_insert_eq in D by assumption.
        now injection D as <-.
    + rewrite lookup_insert_eq in D'. now injection D' as <-.
Qed.

Lemma C5_witness :
  op_eq (mkEndpoint Type_IP (m_IPEndpoint sample_ip))
        (mkEndpoint Type_BTH (m_BTHEndpoint sample_bth)) = Ok false
  ∧ op_eq (mkEndpoint Type_BTH (m_BTHEndpoint sample_bth))
          (mkEndpoint Type_IP (m_IPEndpoint sample_ip)) = Ok false.
Proof.
  refine (proj1 (proj2 (C5_equality_is_structural sample_store 1 2 _ _
                          sample_store_reachable _ _)) _ _).
  - vm_compute. reflexivity.
  - vm_compute. reflexivity.
  - reflexivity.
  - reflexivity.
Defined.

(** ** Chains of transfers *)

Section chains.
Implicit Types (h : Store) (src dst : loc) (e : Endpoint).

Lemma run_all_app (xs ys : list Op) h :
  run_all (xs ++ ys) h = (run_all xs ;; run_all ys) h.
Proof.
  revert h. induction xs as [| x xs IH]; intros h; simpl.
  - reflexivity.
  - unfold mbind, M_bind. destruct (step x h) as [[[] h1] | f]; [| reflexivity].
    apply IH.
Qed.

Lemma live_Some l e h : h !! l = Some e → live l h = true.
Proof. intros E. apply live_true. eauto. Qed.

Lemma live_None l h : h !! l = None → live l h = false.
Proof. intros E. apply negb_true_iff, live_false, E. Qed.

Lemma step_enabled (o : Op) h r :
  enabled o h = true → run o h = r → step o h = r.
Proof. intros En <-. unfold step. now rewrite En. Qed.

Lemma received_holder e :
  consistent e = true → GetType e ≠ Type_Unspecified → received e = e.
Proof.
  intros C NU. destruct (consistent_cases e C) as [(v & -> & V) | [(v & -> & V) | U]];
    try reflexivity.
  now destruct NU.
Qed.

(** One transfer puts the value of [src] into the fresh [dst] and leaves the
    objects other than these two alone. *)
Lemma transfer_ok (k : Transfer) dst src e h :
  h !! src = Some e → h !! dst = None →
  consistent e = true → GetType e ≠ Type_Unspecified →
  ∃ h1, run_all (transfer k dst src) h = Ok (tt, h1)
        ∧ h1 !! dst = Some e
        ∧ (∀ l, l ≠ dst → l ≠ src → h1 !! l = h !! l).
Proof.
  intros E F C NU. assert (Ne : dst ≠ src) by congruence.
  pose proof (received_holder e C NU) as Rc.
  destruct k; simpl.
  - eexists. split; [| split].
    + erewrite (bind_Ok (step _)).
      2:{ apply step_enabled; [simpl; now rewrite (live_None _ _ F), (live_Some _ _ _ E) |].
          simpl. apply ctor_copy_fresh; eassumption. }
      reflexivity.
    + rewrite Rc. apply lookup_insert_eq.
    + intros l L1 L2. now rewrite lookup_insert_ne.
  - eexists. split; [| split].
    + erewrite (bind_Ok (step _)).
      2:{ apply step_enabled; [simpl; now rewrite (live_None _ _ F), (live_Some _ _ _ E) |].
          simpl. apply ctor_move_fresh; eassumption. }
      reflexivity.
    + rewrite Rc. apply lookup_insert_eq.
    + intros l L1 L2. now rewrite !lookup_insert_ne.
  - eexists. split; [| split].
    + erewrite (bind_Ok (step _)).
      2:{ apply step_enabled; [simpl; now rewrite (live_None _ _ F) |]. reflexivity. }
      erewrite (bind_Ok (step _)).
      2:{ apply step_enabled.
          - simpl. erewrite live_Some by apply lookup_insert_eq.
            erewrite live_Some; [reflexivity |].
            rewrite lookup_insert_ne by exact Ne. exact E.
          - simpl. eapply assign_copy_ne; [exact Ne | apply lookup_insert_eq | | exact C].
            rewrite lookup_insert_ne by exact Ne. exact E. }
      reflexivity.
    + rewrite Rc. apply lookup_insert_eq.
    + intros l L1 L2. now rewrite !lookup_insert_ne.
  - eexists. split; [| split].
    + erewrite (bind_Ok (step _)).
      2:{ apply step_enabled; [simpl; now rewrite (live_None _ _ F) |]. reflexivity. }
      erewrite (bind_Ok (step _)).
      2:{ apply step_enabled.
          - simpl. erewrite live_Some by apply lookup_insert_eq.
            erewrite live_Some; [reflexivity |].
            rewrite lookup_insert_ne by exact Ne. exact E.
          - simpl. eapply assign_move_ne; [exact Ne | apply lookup_insert_eq | | exact C].
            rewrite lookup_insert_ne by exact Ne. exact E. }
      reflexivity.
    + rewrite Rc. apply lookup_insert_eq.
    + intros l L1 L2. now rewrite !lookup_insert_ne.
Qed.

(** A chain of transfers carries the value of its first object, unchanged, to
    its last. *)
Lemma hand_over_ok (ks : list Transfer) src e h :
  h !! src = Some e → (∀ l, (src < l)%positive → h !! l = None) →
  consistent e = true → GetType e ≠ Type_Unspecified →
  ∃ h', run_all (hand_over ks src) h = Ok (tt, h')
        ∧ h' !! last_holder ks src = Some e.
Proof.
  revert src h. induction ks as [| k ks IH]; intros src h E F C NU; simpl.
  - now exists h.
  - destruct (transfer_ok k (Pos.succ src) src e h E (F _ (Pos.lt_succ_diag_r src)) C NU)
      as (h1 & R1 & D1 & O1).
    destruct (IH (Pos.succ src) h1 D1) as (h' & R' & L'); try assumption.
    { intros l Hl. rewrite O1 by lia. apply F. lia. }
    exists h'. split; [| exact L'].
    rewrite run_all_app. now rewrite (bind_Ok _ _ _ _ _ R1).
Qed.

End chains.

(** C6.  The relay coordinates of a concrete endpoint with a valid protocol
    are what [GetRelayPort()] and [GetRelayHop()] return on the Endpoint
    constructed from it and on the last object of every chain of copies and
    moves that starts there; a single copy or move between two objects of a
    reachable store gives the target the coordinates of the source; and an
    object whose type is Unspecified returns 0 for both. *)
Theorem C6_relay_coordinates_carried :
  (∀ (ks : list Transfer) (v : IPEndpoint.t),
     IPEndpoint.valid_protocol (IPEndpoint.GetProtocol v) = true →
     ∃ h' e, run_all (IPCtor 1 v :: hand_over ks 1) ∅ = Ok (tt, h')
             ∧ h' !! last_holder ks 1 = Some e
             ∧ GetRelayPort e = Ok (IPEndpoint.GetRelayPort v)
             ∧ GetRelayHop e = Ok (IPEndpoint.GetRelayHop v))
  ∧ (∀ (ks : list Transfer) (v : BTHEndpoint.t),
       BTHEndpoint.valid_protocol (BTHEndpoint.GetProtocol v) = true →
       ∃ h' e, run_all (BTHCtor 1 v :: hand_over ks 1) ∅ = Ok (tt, h')
               ∧ h' !! last_holder ks 1 = Some e
               ∧ GetRelayPort e = Ok (BTHEndpoint.GetRelayPort v)
               ∧ GetRelayHop e = Ok (BTHEndpoint.GetRelayHop v))
  ∧ (∀ (h : Store) (src dst : loc) (e : Endpoint),
       reachable h → h !! src = Some e → dst ≠ src →
       (∃ h' e', copy_into dst src h = Ok (tt, h')
                 ∧ h' !! dst = Some e' ∧ h' !! src = Some e
                 ∧ GetRelayPort e' = GetRelayPort e
                 ∧ GetRelayHop e' = GetRelayHop e)
       ∧ (∃ h' e', move_into dst src h = Ok (tt, h')
                   ∧ h' !! dst = Some e'
                   ∧ GetRelayPort e' = GetRelayPort e
                   ∧ GetRelayHop e' = GetRelayHop e))
  ∧ (∀ e : Endpoint, GetType e = Type_Unspecified →
       GetRelayPort e = Ok 0 ∧ GetRelayHop e = Ok 0).
Proof.
  split; [| split; [| split]].
  - intros ks v V.
    destruct (hand_over_ok ks 1 (mkEndpoint Type_IP (m_IPEndpoint v))
                (<[1%positive := mkEndpoint Type_IP (m_IPEndpoint v)]> ∅))
      as (h' & R & L).
    { apply lookup_insert_eq. }
    { intros l Hl. rewrite lookup_insert_ne by lia. apply lookup_empty. }
    { unfold consistent. simpl. exact V. }
    { discriminate. }
    exists h', (mkEndpoint Type_IP (m_IPEndpoint v)).
    split; [| split; [exact L | split; reflexivity]].
    change (run_all (IPCtor 1 v :: hand_over ks 1))
      with (step (IPCtor 1 v) ;; run_all (hand_over ks 1)).
    erewrite (bind_Ok (step _)); [exact R |].
    apply step_enabled; [reflexivity |]. simpl.
    now rewrite ctor_IP_eq, (converted_IP_valid v V).
  - intros ks v V.
    destruct (hand_over_ok ks 1 (mkEndpoint Type_BTH (m_BTHEndpoint v))
                (<[1%positive := mkEndpoint Type_BTH (m_BTHEndpoint v)]> ∅))
      as (h' & R & L).
    { apply lookup_insert_eq. }
    { intros l Hl. rewrite lookup_insert_ne by lia. apply lookup_empty. }
    { unfold consistent. simpl. exact V. }
    { discriminate. }
    exists h', (mkEndpoint Type_BTH (m_BTHEndpoint v)).
    split; [| split; [exact L | split; reflexivity]].
    change (run_all (BTHCtor 1 v :: hand_over ks 1))
      with (step (BTHCtor 1 v) ;; run_all (hand_over ks 1)).
    erewrite (bind_Ok (step _)); [exact R |].
    apply step_enabled; [reflexivity |]. simpl.
    now rewrite ctor_BTH_eq, (converted_BTH_valid v V).
  - intros h src dst e R E Ne.
    pose proof (reachable_consistent h R src e E) as C.
    destruct (same_value_received e C) as (_ & _ & _ & P & H & _).
    split.
    + exists (<[dst := received e]> h), (received e).
      rewrite (copy_into_ne _ _ _ _ Ne E C), lookup_insert_eq.
      rewrite lookup_insert_ne by exact Ne. now repeat split.
    + exists (<[dst := received e]> (<[src := moved_from e]> h)), (received e).
      rewrite (move_into_ne _ _ _ _ Ne E C), lookup_insert_eq. now repeat split.
  - intros e U. split; [now apply GetRelayPort_Unspecified
                       | now apply GetRelayHop_Unspecified].
Qed.

Lemma C6_witness :
  ∃ h' e,
    run_all (IPCtor 1 sample_ip
             :: hand_over [ByCopyCtor; ByMoveAssign; ByMoveCtor; ByCopyAssign] 1) ∅
    = Ok (tt, h')
    ∧ h' !! last_holder [ByCopyCtor; ByMoveAssign; ByMoveCtor; ByCopyAssign] 1
      = Some e
    ∧ GetRelayPort e = Ok 42 ∧ GetRelayHop e = Ok 2.
Proof.
  apply (proj1 C6_relay_coordinates_carried
           [ByCopyCtor; ByMoveAssign; ByMoveCtor; ByCopyAssign] sample_ip).
  reflexivity.
Defined.

(** C7, as stated, fails for payloads whose protocol is Unspecified: two
    IPEndpoints that differ in [RelayHop] only compare unequal, but the
    Endpoints constructed from them are both Unspecified and compare equal. *)
Lemma C7_counterexample :
  let x := IPEndpoint.make Unspecified (IPv4 167772165) 9000 42 2 in
  let y := IPEndpoint.make Unspecified (IPv4 167772165) 9000 42 3 in
  IPEndpoint.address x = IPEndpoint.address y
  ∧ IPEndpoint.port x = IPEndpoint.port y
  ∧ IPEndpoint.protocol x = IPEndpoint.protocol y
  ∧ IPEndpoint.relay_hop x ≠ IPEndpoint.relay_hop y
  ∧ IPEndpoint.eqb x y = false
  ∧ ∃ h' ex ey, (ctor_IP 1 x ;; ctor_IP 2 y) ∅ = Ok (tt, h')
                ∧ h' !! 1%positive = Some ex ∧ h' !! 2%positive = Some ey
                ∧ op_eq ex ey = Ok true.
Proof.
  repeat split; try discriminate.
  eexists _, _, _. split; [vm_compute; reflexivity |].
  split; [vm_compute; reflexivity |]. split; [vm_compute; reflexivity |].
  reflexivity.
Qed.

(** C7, amended.  Two IPEndpoints with the same address, port and protocol
    that differ in [RelayHop] or in [RelayPort] compare unequal, and two
    IPEndpoints equal in all five fields compare equal; the same for
    BTHEndpoints; [operator==] on the Endpoints constructed from two concrete
    endpoints with a valid protocol returns what the comparison of the
    concrete endpoints returns; and the Endpoints constructed from two
    concrete endpoints whose protocol is Unspecified are equal. *)
Theorem C7_equality_respects_relay_coordinates :
  (∀ x y : IPEndpoint.t,
     IPEndpoint.address x = IPEndpoint.address y →
     IPEndpoint.port x = IPEndpoint.port y →
     IPEndpoint.protocol x = IPEndpoint.protocol y →
     IPEndpoint.relay_hop x ≠ IPEndpoint.relay_hop y
     ∨ IPEndpoint.relay_port x ≠ IPEndpoint.relay_port y →
     IPEndpoint.eqb x y = false)
  ∧ (∀ x y : IPEndpoint.t,
       IPEndpoint.address x = IPEndpoint.address y →
       IPEndpoint.port x = IPEndpoint.port y →
       IPEndpoint.protocol x = IPEndpoint.protocol y →
       IPEndpoint.relay_port x = IPEndpoint.relay_port y →
       IPEndpoint.relay_hop x = IPEndpoint.relay_hop y →
       IPEndpoint.eqb x y = true)
  ∧ (∀ x y : BTHEndpoint.t,
       BTHEndpoint.address x = BTHEndpoint.address y →
       BTHEndpoint.port x = BTHEndpoint.port y →
       BTHEndpoint.protocol x = BTHEndpoint.protocol y →
       BTHEndpoint.relay_hop x ≠ BTHEndpoint.relay_hop y
       ∨ BTHEndpoint.relay_port x ≠ BTHEndpoint.relay_port y →
       BTHEndpoint.eqb x y = false)
  ∧ (∀ x y : BTHEndpoint.t,
       BTHEndpoint.address x = BTHEndpoint.address y →
       BTHEndpoint.port x = BTHEndpoint.port y →
       BTHEndpoint.protocol x = BTHEndpoint.protocol y →
       BTHEndpoint.relay_port x = BTHEndpoint.relay_port y →
       BTHEndpoint.relay_hop x = BTHEndpoint.relay_hop y →
       BTHEndpoint.eqb x y = true)
  ∧ (∀ (lx ly : loc) (x y : IPEndpoint.t) (h : Store),
       lx ≠ ly →
       IPEndpoint.valid_protocol (IPEndpoint.GetProtocol x) = true →
       IPEndpoint.valid_protocol (IPEndpoint.GetProtocol y) = true →
       ∃ h' ex ey, (ctor_IP lx x ;; ctor_IP ly y) h = Ok (tt, h')
                   ∧ h' !! lx = Some ex ∧ h' !! ly = Some ey
                   ∧ op_eq ex ey = Ok (IPEndpoint.eqb x y)
                   ∧ op_ne ex ey = Ok (negb (IPEndpoint.eqb x y)))
  ∧ (∀ (lx ly : loc) (x y : BTHEndpoint.t) (h : Store),
       lx ≠ ly →
       BTHEndpoint.valid_protocol (BTHEndpoint.GetProtocol x) = true →
       BTHEndpoint.valid_protocol (BTHEndpoint.GetProtocol y) = true →
       ∃ h' ex ey, (ctor_BTH lx x ;; ctor_BTH ly y) h = Ok (tt, h')
                   ∧ h' !! lx = Some ex ∧ h' !! ly = Some ey
                   ∧ op_eq ex ey = Ok (BTHEndpoint.eqb x y)
                   ∧ op_ne ex ey = Ok (negb (BTHEndpoint.eqb x y)))
  ∧ (∀ (lx ly : loc) (x y : IPEndpoint.t) (h : Store),
       lx ≠ ly →
       IPEndpoint.GetProtocol x = Unspecified →
       IPEndpoint.GetProtocol y = Unspecified →
       ∃ h' ex ey, (ctor_IP lx x ;; ctor_IP ly y) h = Ok (tt, h')
                   ∧ h' !! lx = Some ex ∧ h' !! ly = Some ey
                   ∧ op_eq ex ey = Ok true)
  ∧ (∀ (lx ly : loc) (x y : BTHEndpoint.t) (h : Store),
       lx ≠ ly →
       BTHEndpoint.GetProtocol x = Unspecified →
       BTHEndpoint.GetProtocol y = Unspecified →
       ∃ h' ex ey, (ctor_BTH lx x ;; ctor_BTH ly y) h = Ok (tt, h')
                   ∧ h' !! lx = Some ex ∧ h' !! ly = Some ey
                   ∧ op_eq ex ey = Ok true).
Proof.
  repeat split.
  - intros x y _ _ _ D. apply not_true_is_false. rewrite IPEndpoint_eqb_eq.
    intros ->. now destruct D.
  - intros x y A P Pr RP RH. apply IPEndpoint_eqb_eq.
    destruct x, y; simpl in *. congruence.
  - intros x y _ _ _ D. apply not_true_is_false. rewrite BTHEndpoint_eqb_eq.
    intros ->. now destruct D.
  - intros x y A P Pr RP RH. apply BTHEndpoint_eqb_eq.
    destruct x, y; simpl in *. congruence.
  - intros lx ly x y h Ne Vx Vy.
    exists (<[ly := mkEndpoint Type_IP (m_IPEndpoint y)]>
              (<[lx := mkEndpoint Type_IP (m_IPEndpoint x)]> h)),
      (mkEndpoint Type_IP (m_IPEndpoint x)), (mkEndpoint Type_IP (m_IPEndpoint y)).
    erewrite (bind_Ok (ctor_IP lx x))
      by now rewrite ctor_IP_eq, (converted_IP_valid x Vx).
    rewrite ctor_IP_eq, (converted_IP_valid y Vy).
    rewrite lookup_insert_ne, !lookup_insert_eq by congruence. now repeat split.
  - intros lx ly x y h Ne Vx Vy.
    exists (<[ly := mkEndpoint Type_BTH (m_BTHEndpoint y)]>
              (<[lx := mkEndpoint Type_BTH (m_BTHEndpoint x)]> h)),
      (mkEndpoint Type_BTH (m_BTHEndpoint x)), (mkEndpoint Type_BTH (m_BTHEndpoint y)).
    erewrite (bind_Ok (ctor_BTH lx x))
      by now rewrite ctor_BTH_eq, (converted_BTH_valid x Vx).
    rewrite ctor_BTH_eq, (converted_BTH_valid y Vy).
    rewrite lookup_insert_ne, !lookup_insert_eq by congruence. now repeat split.
  - intros lx ly x y h Ne Ux Uy.
    exists (<[ly := mkEndpoint Type_Unspecified (m_Dummy 0)]>
              (<[lx := mkEndpoint Type_Unspecified (m_Dummy 0)]> h)),
      (mkEndpoint Type_Unspecified (m_Dummy 0)),
      (mkEndpoint Type_Unspecified (m_Dummy 0)).
    erewrite (bind_Ok (ctor_IP lx x))
      by (rewrite ctor_IP_eq; unfold converted_IP;
          unfold IPEndpoint.GetProtocol in Ux; now rewrite Ux).
    rewrite ctor_IP_eq. unfold converted_IP.
    unfold IPEndpoint.GetProtocol in Uy. rewrite Uy.
    rewrite lookup_insert_ne, !lookup_insert_eq by congruence. now repeat split.
  - intros lx ly x y h Ne Ux Uy.
    exists (<[ly := mkEndpoint Type_Unspecified (m_Dummy 0)]>
              (<[lx := mkEndpoint Type_Unspecified (m_Dummy 0)]> h)),
      (mkEndpoint Type_Unspecified (m_Dummy 0)),
      (mkEndpoint Type_Unspecified (m_Dummy 0)).
    erewrite (bind_Ok (ctor_BTH lx x))
      by (rewrite ctor_BTH_eq; unfold converted_BTH;
          unfold BTHEndpoint.GetProtocol in Ux; now rewrite Ux).
    rewrite ctor_BTH_eq. unfold converted_BTH.
    unfold BTHEndpoint.GetProtocol in Uy. rewrite Uy.
    rewrite lookup_insert_ne, !lookup_insert_eq by congruence. now repeat split.
Qed.

Lemma C7_witness :
  IPEndpoint.eqb sample_ip (IPEndpoint.make TCP (IPv4 167772165) 9000 42 3)
  = false.
Proof.
  apply (proj1 C7_equality_respects_relay_coordinates sample_ip
           (IPEndpoint.make TCP (IPv4 167772165) 9000 42 3));
    [reflexivity | reflexivity | reflexivity |].
  left. discriminate.
Defined.

(** C8.  Copy assignment and move assignment of an object to itself leave
    the whole store, and with it the object's type, payload and every
    accessor result, as they were. *)
Theorem C8_self_assignment_is_identity (h : Store) (a : loc) :
  assign_copy a a h = Ok (tt, h) ∧ assign_move a a h = Ok (tt, h).
Proof.
  unfold assign_copy, assign_move. rewrite !decide_True by reflexivity.
  split; reflexivity.
Qed.

(** ** No operation on reachable objects faults *)

Section no_fault.
Implicit Types (h : Store) (e a b : Endpoint).

Lemma op_eq_Ok a b :
  consistent a = true → consistent b = true → is_Ok (op_eq a b).
Proof.
  intros Ca Cb. unfold op_eq.
  destruct (m_Type a =? m_Type b) eqn:T; [| now eexists].
  apply N.eqb_eq in T.
  destruct (consistent_cases a Ca) as [(x & -> & Vx) | [(x & -> & Vx) | Ua]];
    destruct (consistent_cases b Cb) as [(y & -> & Vy) | [(y & -> & Vy) | Ub]];
    simpl in *; try discriminate T; try (now eexists);
    try (rewrite Ub in T; discriminate T);
    try (rewrite Ua in T; discriminate T).
  rewrite Ua. now eexists.
Qed.

Lemma Copy_Ok (this other : loc) et eo h :
  h !! this = Some et → h !! other = Some eo → consistent eo = true →
  is_Ok (Copy this other h).
Proof. intros Et Eo C. rewrite (Copy_Some _ _ _ _ _ Et Eo C). now eexists. Qed.

Lemma Move_Ok (this other : loc) et eo h :
  h !! this = Some et → h !! other = Some eo → consistent eo = true →
  is_Ok (Move this other h).
Proof.
  intros Et Eo C. destruct (decide (this = other)) as [-> | Ne].
  - eapply Move_self_Ok; eassumption.
  - rewrite (Move_Some _ _ _ _ _ Ne Et Eo C). now eexists.
Qed.

Lemma assign_copy_Ok (this other : loc) et eo h :
  h !! this = Some et → h !! other = Some eo → consistent eo = true →
  is_Ok (assign_copy this other h).
Proof.
  intros Et Eo C. destruct (decide (this = other)) as [-> | Ne].
  - unfold assign_copy. rewrite decide_True by reflexivity. now eexists.
  - rewrite (assign_copy_ne _ _ _ _ _ Ne Et Eo C). now eexists.
Qed.

Lemma assign_move_Ok (this other : loc) et eo h :
  h !! this = Some et → h !! other = Some eo → consistent eo = true →
  is_Ok (assign_move this other h).
Proof.
  intros Et Eo C. destruct (decide (this = other)) as [-> | Ne].
  - unfold assign_move. rewrite decide_True by reflexivity. now eexists.
  - rewrite (assign_move_ne _ _ _ _ _ Ne Et Eo C). now eexists.
Qed.

(** A move between two distinct objects of a reachable store leads to a
    reachable store. *)
Lemma move_into_reachable (dst src : loc) h h' :
  reachable h → live src h = true → move_into dst src h = Ok (tt, h') →
  reachable h'.
Proof.
  intros R Ls Mv. unfold move_into in Mv. destruct (live dst h) eqn:Ld.
  - apply (reachable_step h h' (MoveAssign dst src)); [assumption | | assumption].
    simpl. now rewrite Ld, Ls.
  - apply (reachable_step h h' (MoveCtor dst src)); [assumption | | assumption].
    simpl. now rewrite Ld, Ls.
Qed.

End no_fault.

(** C9.  In every reachable store the discriminant of every object is
    Unspecified, IP or BTH, and on such objects [operator==],
    [GetRelayPort], [GetRelayHop], [Copy] and [Move], and the constructors
    and assignment operators that call the latter two, return a result: none
    of them reaches its [assert(false)], or any other fault. *)
Theorem C9_assert_branches_unreachable
    (h : Store) (la lb : loc) (a b : Endpoint) :
  reachable h → h !! la = Some a → h !! lb = Some b →
  (GetType a = Type_Unspecified ∨ GetType a = Type_IP ∨ GetType a = Type_BTH)
  ∧ is_Ok (op_eq a b)
  ∧ is_Ok (GetRelayPort a)
  ∧ is_Ok (GetRelayHop a)
  ∧ is_Ok (Copy la lb h)
  ∧ is_Ok (Move la lb h)
  ∧ is_Ok (assign_copy la lb h)
  ∧ is_Ok (assign_move la lb h)
  ∧ (∀ lc, h !! lc = None →
       is_Ok (ctor_copy lc lb h) ∧ is_Ok (ctor_move lc lb h)).
Proof.
  intros R Ea Eb.
  pose proof (reachable_consistent h R la a Ea) as Ca.
  pose proof (reachable_consistent h R lb b Eb) as Cb.
  split; [now apply consistent_Type |].
  split; [now apply op_eq_Ok |].
  split; [now apply GetRelayPort_Ok |].
  split; [now apply GetRelayHop_Ok |].
  split; [eapply Copy_Ok; eassumption |].
  split; [eapply Move_Ok; eassumption |].
  split; [eapply assign_copy_Ok; eassumption |].
  split; [eapply assign_move_Ok; eassumption |].
  intros lc Fc. split.
  - rewrite (ctor_copy_fresh _ _ _ _ Fc Eb Cb). now eexists.
  - rewrite (ctor_move_fresh _ _ _ _ Fc Eb Cb). now eexists.
Qed.

Lemma C9_witness :
  is_Ok (op_eq (mkEndpoint Type_BTH (m_BTHEndpoint sample_bth))
               (mkEndpoint Type_Unspecified (m_Dummy 0))).
Proof.
  refine (proj1 (proj2 (C9_assert_branches_unreachable sample_store 2 3 _ _
                          sample_store_reachable _ _))).
  - vm_compute. reflexivity.
  - vm_compute. reflexivity.
Defined.

(** C10.  After a move between two distinct objects of a reachable store,
    the object moved from behaves as a default-constructed one: its type is
    Unspecified, its relay coordinates are 0, it is equal to a
    default-constructed Endpoint in both directions, it can be compared with
    any object, and it can be assigned to again, after which it holds the
    value assigned. *)
Theorem C10_moved_from_is_default (h : Store) (a b : loc) (ea : Endpoint) :
  reachable h → h !! a = Some ea → b ≠ a →
  ∃ h' ea',
    move_into b a h = Ok (tt, h')
    ∧ reachable h'
    ∧ h' !! a = Some ea'
    ∧ GetType ea' = Type_Unspecified
    ∧ GetRelayPort ea' = Ok 0
    ∧ GetRelayHop ea' = Ok 0
    ∧ (∀ d hd dflt,
         d ≠ a → ctor_default d h' = Ok (tt, hd) → hd !! d = Some dflt →
         hd !! a = Some ea'
         ∧ op_eq ea' dflt = Ok true ∧ op_eq dflt ea' = Ok true
         ∧ op_ne ea' dflt = Ok false)
    ∧ (∀ c ec, h' !! c = Some ec →
         is_Ok (op_eq ea' ec) ∧ is_Ok (op_eq ec ea'))
    ∧ (∀ c ec, c ≠ a → h' !! c = Some ec →
         (∃ h2 ea2, assign_copy a c h' = Ok (tt, h2)
                    ∧ h2 !! a = Some ea2 ∧ same_value ea2 ec)
         ∧ (∃ h2 ea2, assign_move a c h' = Ok (tt, h2)
                      ∧ h2 !! a = Some ea2 ∧ same_value ea2 ec)).
Proof.
  intros R E Ne. pose proof (reachable_consistent h R a ea E) as C.
  pose proof (move_into_ne b a ea h Ne E C) as Mv.
  assert (R' : reachable (<[b := received ea]> (<[a := moved_from ea]> h))).
  { eapply move_into_reachable; [exact R | | exact Mv]. apply live_true. eauto. }
  assert (E' : <[b := received ea]> (<[a := moved_from ea]> h) !! a
               = Some (moved_from ea)).
  { rewrite lookup_insert_ne by exact Ne. apply lookup_insert_eq. }
  exists (<[b := received ea]> (<[a := moved_from ea]> h)), (moved_from ea).
  split; [exact Mv |]. split; [exact R' |]. split; [exact E' |].
  split; [reflexivity |]. split; [reflexivity |]. split; [reflexivity |].
  split; [| split].
  - intros d hd dflt Nd [= <-] D. rewrite lookup_insert_eq in D.
    injection D as <-. rewrite lookup_insert_ne by exact Nd.
    split; [exact E' |]. repeat split.
  - intros c ec Ec.
    pose proof (reachable_consistent _ R' c ec Ec) as Cc.
    split; apply op_eq_Ok; try assumption; reflexivity.
  - intros c ec Nc Ec.
    pose proof (reachable_consistent _ R' c ec Ec) as Cc.
    assert (Nac : a ≠ c) by congruence.
    split.
    + eexists _, (received ec).
      rewrite (assign_copy_ne _ _ _ _ _ Nac E' Ec Cc), lookup_insert_eq.
      split; [reflexivity |]. split; [reflexivity |].
      now apply same_value_received.
    + eexists _, (received ec).
      rewrite (assign_move_ne _ _ _ _ _ Nac E' Ec Cc), lookup_insert_eq.
      split; [reflexivity |]. split; [reflexivity |].
      now apply same_value_received.
Qed.

Lemma C10_witness :
  ∃ h' ea',
    move_into 5 2 sample_store = Ok (tt, h')
    ∧ reachable h'
    ∧ h' !! 2%positive = Some ea'
    ∧ GetType ea' = Type_Unspecified
    ∧ GetRelayPort ea' = Ok 0
    ∧ GetRelayHop ea' = Ok 0.
Proof.
  destruct (C10_moved_from_is_default sample_store 2 5
              (mkEndpoint Type_BTH (m_BTHEndpoint sample_bth))
              sample_store_reachable)
    as (h' & ea' & Mv & R' & E' & T & P & H & _).
  - vm_compute. reflexivity.
  - discriminate.
  - exists h', ea'. repeat split; assumption.
Defined.

(** * Further properties of the Endpoint operations *)

Section canonical.
Implicit Types (h : Store) (e a b : Endpoint).

Lemma received_idem e : received (received e) = received e.
Proof.
  unfold received. destruct ((m_Type e =? Type_IP) || (m_Type e =? Type_BTH)) eqn:T.
  - now rewrite T.
  - reflexivity.
Qed.

(** [operator==] compares what a copy of each operand would hold. *)
Lemma op_eq_received a b :
  consistent a = true → consistent b = true →
  op_eq a b = Ok (bool_decide (received a = received b)).
Proof.
  intros Ca Cb.
  destruct (consistent_cases a Ca) as [(x & -> & Vx) | [(x & -> & Vx) | Ua]];
    destruct (consistent_cases b Cb) as [(y & -> & Vy) | [(y & -> & Vy) | Ub]];
    unfold op_eq, received; simpl; rewrite ?Ua, ?Ub; simpl;
    try (f_equal; symmetry; apply bool_decide_eq_false; discriminate);
    try (f_equal; symmetry; now apply bool_decide_eq_true).
  - f_equal. destruct (IPEndpoint.eqb x y) eqn:E; symmetry.
    + apply IPEndpoint_eqb_eq in E as ->. now apply bool_decide_eq_true.
    + apply bool_decide_eq_false. intros [= ->].
      rewrite IPEndpoint_eqb_refl in E. discriminate.
  - f_equal. destruct (BTHEndpoint.eqb x y) eqn:E; symmetry.
    + apply BTHEndpoint_eqb_eq in E as ->. now apply bool_decide_eq_true.
    + apply bool_decide_eq_false. intros [= ->].
      rewrite BTHEndpoint_eqb_refl in E. discriminate.
Qed.

Lemma same_value_accessors a b :
  consistent a = true → consistent b = true → received a = received b →
  same_value a b.
Proof.
  intros Ca Cb E.
  destruct (same_value_received a Ca) as (T1 & I1 & B1 & P1 & H1 & _).
  destruct (same_value_received b Cb) as (T2 & I2 & B2 & P2 & H2 & _).
  rewrite E in T1, I1, B1, P1, H1.
  repeat split; try congruence.
  rewrite (op_eq_received a b Ca Cb). f_equal. now apply bool_decide_eq_true.
Qed.

Lemma copy_into_reachable (dst src : loc) h h' :
  reachable h → live src h = true → copy_into dst src h = Ok (tt, h') →
  reachable h'.
Proof.
  intros R Ls Cp. unfold copy_into in Cp. destruct (live dst h) eqn:Ld.
  - apply (reachable_step h h' (CopyAssign dst src)); [assumption | | assumption].
    simpl. now rewrite Ld, Ls.
  - apply (reachable_step h h' (CopyCtor dst src)); [assumption | | assumption].
    simpl. now rewrite Ld, Ls.
Qed.

End canonical.

(** X1.  On the objects of a reachable store [operator==] never faults and
    is an equivalence: every object equals itself, the two orders of the
    operands return the same result, and equality is transitive. *)
Theorem X1_op_eq_equivalence (h : Store) (la lb lc : loc) (a b c : Endpoint) :
  reachable h → h !! la = Some a → h !! lb = Some b → h !! lc = Some c →
  op_eq a a = Ok true
  ∧ (∃ r, op_eq a b = Ok r ∧ op_eq b a = Ok r)
  ∧ (op_eq a b = Ok true → op_eq b c = Ok true → op_eq a c = Ok true).
Proof.
  intros R Ea Eb Ec.
  pose proof (reachable_consistent h R la a Ea) as Ca.
  pose proof (reachable_consistent h R lb b Eb) as Cb.
  pose proof (reachable_consistent h R lc c Ec) as Cc.
  rewrite !op_eq_received by assumption.
  split; [| split].
  - f_equal. now apply bool_decide_eq_true.
  - exists (bool_decide (received a = received b)). split; [reflexivity |].
    f_equal. apply bool_decide_ext. split; congruence.
  - intros [= AB%bool_decide_eq_true] [= BC%bool_decide_eq_true].
    f_equal. apply bool_decide_eq_true. congruence.
Qed.

Lemma X1_witness :
  ∃ r, op_eq (mkEndpoint Type_IP (m_IPEndpoint sample_ip))
             (mkEndpoint Type_BTH (m_BTHEndpoint sample_bth)) = Ok r
       ∧ op_eq (mkEndpoint Type_BTH (m_BTHEndpoint sample_bth))
               (mkEndpoint Type_IP (m_IPEndpoint sample_ip)) = Ok r.
Proof.
  refine (proj1 (proj2 (X1_op_eq_equivalence sample_store 1 2 3 _ _ _
                          sample_store_reachable _ _ _))).
  - vm_compute. reflexivity.
  - vm_compute. reflexivity.
  - vm_compute. reflexivity.
Defined.

(** X2.  On the objects of a reachable store [operator!=] returns a result,
    the negation of what [operator==] returns; no object is unequal to
    itself. *)
Theorem X2_op_ne_negates_op_eq (h : Store) (la lb : loc) (a b : Endpoint) :
  reachable h → h !! la = Some a → h !! lb = Some b →
  (∃ r, op_eq a b = Ok r ∧ op_ne a b = Ok (negb r))
  ∧ op_ne a a = Ok false.
Proof.
  intros R Ea Eb.
  pose proof (reachable_consistent h R la a Ea) as Ca.
  pose proof (reachable_consistent h R lb b Eb) as Cb.
  split.
  - destruct (op_eq_Ok a b Ca Cb) as [r Hr]. exists r. split; [exact Hr |].
    unfold op_ne. now rewrite Hr.
  - unfold op_ne. now rewrite (op_eq_refl a Ca).
Qed.

Lemma X2_witness :
  op_ne (mkEndpoint Type_BTH (m_BTHEndpoint sample_bth))
        (mkEndpoint Type_BTH (m_BTHEndpoint sample_bth)) = Ok false.
Proof.
  refine (proj2 (X2_op_ne_negates_op_eq sample_store 2 3 _ _
                   sample_store_reachable _ _)).
  - vm_compute. reflexivity.
  - vm_compute. reflexivity.
Defined.

(** X3.  The typed accessors are guarded by the discriminant: on an object
    of a reachable store [GetIPEndpoint] returns a payload exactly when the
    type is IP and [GetBTHEndpoint] exactly when the type is BTH; on any
    other type the accessor fails its assertion, so on an Unspecified object
    both do. *)
Theorem X3_typed_accessors_guarded (h : Store) (l : loc) (e : Endpoint) :
  reachable h → h !! l = Some e →
  (is_Ok (GetIPEndpoint e) ↔ GetType e = Type_IP)
  ∧ (is_Ok (GetBTHEndpoint e) ↔ GetType e = Type_BTH)
  ∧ (GetType e ≠ Type_IP → GetIPEndpoint e = Err AssertionFailure)
  ∧ (GetType e ≠ Type_BTH → GetBTHEndpoint e = Err AssertionFailure)
  ∧ ¬ (is_Ok (GetIPEndpoint e) ∧ is_Ok (GetBTHEndpoint e)).
Proof.
  intros R E. pose proof (reachable_consistent h R l e E) as C.
  assert (NI : GetType e ≠ Type_IP → GetIPEndpoint e = Err AssertionFailure).
  { unfold GetType, GetIPEndpoint. intros N%N.eqb_neq. now rewrite N. }
  assert (NB : GetType e ≠ Type_BTH → GetBTHEndpoint e = Err AssertionFailure).
  { unfold GetType, GetBTHEndpoint. intros N%N.eqb_neq. now rewrite N. }
  assert (I : is_Ok (GetIPEndpoint e) ↔ GetType e = Type_IP).
  { split.
    - intros [v Hv]. destruct (decide (GetType e = Type_IP)) as [T | T];
        [exact T |]. rewrite (NI T) in Hv. discriminate.
    - intros T.
      destruct (consistent_cases e C) as [(v & -> & V) | [(v & -> & V) | U]].
      + now exists v.
      + discriminate T.
      + unfold GetType in T. rewrite U in T. discriminate T. }
  assert (B : is_Ok (GetBTHEndpoint e) ↔ GetType e = Type_BTH).
  { split.
    - intros [v Hv]. destruct (decide (GetType e = Type_BTH)) as [T | T];
        [exact T |]. rewrite (NB T) in Hv. discriminate.
    - intros T.
      destruct (consistent_cases e C) as [(v & -> & V) | [(v & -> & V) | U]].
      + discriminate T.
      + now exists v.
      + unfold GetType in T. rewrite U in T. discriminate T. }
  repeat split; try apply I; try apply B; try assumption.
  intros [Hi Hb]. apply I in Hi. apply B in Hb. rewrite Hi in Hb. discriminate.
Qed.

Lemma X3_witness :
  GetIPEndpoint (mkEndpoint Type_Unspecified (m_Dummy 0)) = Err AssertionFailure.
Proof.
  refine (proj1 (proj2 (proj2 (X3_typed_accessors_guarded sample_store 3 _
                                 sample_store_reachable _))) _).
  - vm_compute. reflexivity.
  - discriminate.
Defined.

(** X4.  A copy, by construction or by assignment, between two distinct
    objects of a reachable store changes the target only: the source and
    every other object are as before, the store is reachable again, and the
    target is indistinguishable from the source and equal to it in both
    directions. *)
Theorem X4_copy_changes_target_only
    (h : Store) (dst src : loc) (e : Endpoint) :
  reachable h → h !! src = Some e → dst ≠ src →
  ∃ h' e',
    copy_into dst src h = Ok (tt, h')
    ∧ reachable h'
    ∧ (∀ l, l ≠ dst → h' !! l = h !! l)
    ∧ h' !! dst = Some e'
    ∧ same_value e' e
    ∧ op_eq e e' = Ok true.
Proof.
  intros R E Ne. pose proof (reachable_consistent h R src e E) as C.
  pose proof (copy_into_ne dst src e h Ne E C) as Cp.
  exists (<[dst := received e]> h), (received e).
  split; [exact Cp |]. split; [| split; [| split; [| split]]].
  - eapply copy_into_reachable; [exact R | | exact Cp]. apply live_true. eauto.
  - intros l Hl. now rewrite lookup_insert_ne.
  - apply lookup_insert_eq.
  - now apply same_value_received.
  - rewrite op_eq_received by (try apply received_consistent; assumption).
    f_equal. apply bool_decide_eq_true. now rewrite received_idem.
Qed.

Lemma X4_witness :
  ∃ h' e',
    copy_into 3 2 sample_store = Ok (tt, h')
    ∧ reachable h'
    ∧ (∀ l, l ≠ 3%positive → h' !! l = sample_store !! l)
    ∧ h' !! 3%positive = Some e'
    ∧ same_value e' (mkEndpoint Type_BTH (m_BTHEndpoint sample_bth))
    ∧ op_eq (mkEndpoint Type_BTH (m_BTHEndpoint sample_bth)) e' = Ok true.
Proof.
  apply (X4_copy_changes_target_only sample_store 3 2).
  - exact sample_store_reachable.
  - vm_compute. reflexivity.
  - discriminate.
Defined.

(** X5.  A move, by construction or by assignment, between two distinct
    objects of a reachable store changes the target and the source only:
    every other object is as before. *)
Theorem X5_move_changes_two_objects_only
    (h : Store) (dst src : loc) (e : Endpoint) :
  reachable h → h !! src = Some e → dst ≠ src →
  ∃ h', move_into dst src h = Ok (tt, h')
        ∧ (∀ l, l ≠ dst → l ≠ src → h' !! l = h !! l).
Proof.
  intros R E Ne. pose proof (reachable_consistent h R src e E) as C.
  exists (<[dst := received e]> (<[src := moved_from e]> h)).
  split; [now apply move_into_ne |].
  intros l L1 L2. now rewrite !lookup_insert_ne.
Qed.

Lemma X5_witness :
  ∃ h', move_into 3 1 sample_store = Ok (tt, h')
        ∧ (∀ l, l ≠ 3%positive → l ≠ 1%positive → h' !! l = sample_store !! l).
Proof.
  apply (X5_move_changes_two_objects_only sample_store 3 1
           (mkEndpoint Type_IP (m_IPEndpoint sample_ip))).
  - exact sample_store_reachable.
  - vm_compute. reflexivity.
  - discriminate.
Defined.

(** X6.  A copy is independent of its original: after [b] is copied from
    [a] and then moved into a third object [c], [a] is exactly as it was,
    [b] is Unspecified, and [c] is indistinguishable from [a]. *)
Theorem X6_copy_is_independent (h : Store) (a b c : loc) (ea : Endpoint) :
  reachable h → h !! a = Some ea → b ≠ a → c ≠ a → c ≠ b →
  ∃ h' eb ec,
    (copy_into b a ;; move_into c b) h = Ok (tt, h')
    ∧ h' !! a = Some ea
    ∧ h' !! b = Some eb ∧ GetType eb = Type_Unspecified
    ∧ h' !! c = Some ec ∧ same_value ec ea.
Proof.
  intros R E Nba Nca Ncb. pose proof (reachable_consistent h R a ea E) as C.
  pose proof (received_consistent ea C) as Cr.
  exists (<[c := received (received ea)]>
            (<[b := moved_from (received ea)]> (<[b := received ea]> h))),
    (moved_from (received ea)), (received (received ea)).
  split; [| split; [| split; [| split; [| split]]]].
  - rewrite (bind_Ok _ _ _ _ _ (copy_into_ne b a ea h Nba E C)).
    apply move_into_ne; [exact Ncb | apply lookup_insert_eq | exact Cr].
  - now rewrite !lookup_insert_ne by congruence.
  - rewrite lookup_insert_ne by exact Ncb. apply lookup_insert_eq.
  - reflexivity.
  - apply lookup_insert_eq.
  - rewrite received_idem. now apply same_value_received.
Qed.

Lemma X6_witness :
  ∃ h' eb ec,
    (copy_into 5 1 ;; move_into 6 5) sample_store = Ok (tt, h')
    ∧ h' !! 1%positive = Some (mkEndpoint Type_IP (m_IPEndpoint sample_ip))
    ∧ h' !! 5%positive = Some eb ∧ GetType eb = Type_Unspecified
    ∧ h' !! 6%positive = Some ec
    ∧ same_value ec (mkEndpoint Type_IP (m_IPEndpoint sample_ip)).
Proof.
  apply (X6_copy_is_independent sample_store 1 5 6).
  - exact sample_store_reachable.
  - vm_compute. reflexivity.
  - discriminate.
  - discriminate.
  - discriminate.
Defined.

(** X7.  Moving a value out of [a] into [b] and back by move assignment
    restores [a]: it is indistinguishable from what it was, and [b] is left
    Unspecified. *)
Theorem X7_move_there_and_back (h : Store) (a b : loc) (ea : Endpoint) :
  reachable h → h !! a = Some ea → b ≠ a →
  ∃ h' ea' eb',
    (move_into b a ;; assign_move a b) h = Ok (tt, h')
    ∧ h' !! a = Some ea' ∧ same_value ea' ea
    ∧ h' !! b = Some eb' ∧ GetType eb' = Type_Unspecified.
Proof.
  intros R E Ne. pose proof (reachable_consistent h R a ea E) as C.
  pose proof (received_consistent ea C) as Cr.
  assert (Nab : a ≠ b) by congruence.
  exists (<[a := received (received ea)]>
            (<[b := moved_from (received ea)]>
               (<[b := received ea]> (<[a := moved_from ea]> h)))),
    (received (received ea)), (moved_from (received ea)).
  split; [| split; [| split; [| split]]].
  - rewrite (bind_Ok _ _ _ _ _ (move_into_ne b a ea h Ne E C)).
    eapply assign_move_ne; [exact Nab | | apply lookup_insert_eq | exact Cr].
    rewrite lookup_insert_ne by exact Ne. apply lookup_insert_eq.
  - apply lookup_insert_eq.
  - rewrite received_idem. now apply same_value_received.
  - rewrite lookup_insert_ne by exact Nab. apply lookup_insert_eq.
  - reflexivity.
Qed.

Lemma X7_witness :
  ∃ h' ea' eb',
    (move_into 5 2 ;; assign_move 2 5) sample_store = Ok (tt, h')
    ∧ h' !! 2%positive = Some ea'
    ∧ same_value ea' (mkEndpoint Type_BTH (m_BTHEndpoint sample_bth))
    ∧ h' !! 5%positive = Some eb' ∧ GetType eb' = Type_Unspecified.
Proof.
  apply (X7_move_there_and_back sample_store 2 5).
  - exact sample_store_reachable.
  - vm_compute. reflexivity.
  - discriminate.
Defined.

(** X8.  The payload bytes that stay behind in an object that was moved
    from are never handed on: a later copy or move out of that object gives
    its target exactly the state of a default-constructed Endpoint, type
    Unspecified and [m_Dummy] 0. *)
Theorem X8_moved_from_hands_on_nothing
    (h : Store) (a b c : loc) (ea : Endpoint) :
  reachable h → h !! a = Some ea → b ≠ a → c ≠ a →
  ∃ h1,
    move_into b a h = Ok (tt, h1)
    ∧ (∃ h2, copy_into c a h1 = Ok (tt, h2)
             ∧ h2 !! c = Some (mkEndpoint Type_Unspecified (m_Dummy 0)))
    ∧ (∃ h2, move_into c a h1 = Ok (tt, h2)
             ∧ h2 !! c = Some (mkEndpoint Type_Unspecified (m_Dummy 0))).
Proof.
  intros R E Nba Nca. pose proof (reachable_consistent h R a ea E) as C.
  exists (<[b := received ea]> (<[a := moved_from ea]> h)).
  assert (E1 : <[b := received ea]> (<[a := moved_from ea]> h) !! a
               = Some (moved_from ea)).
  { rewrite lookup_insert_ne by exact Nba. apply lookup_insert_eq. }
  split; [now apply move_into_ne |]. split.
  - eexists. split.
    + apply (copy_into_ne c a (moved_from ea)); [exact Nca | exact E1 | reflexivity].
    + apply lookup_insert_eq.
  - eexists. split.
    + apply (move_into_ne c a (moved_from ea)); [exact Nca | exact E1 | reflexivity].
    + apply lookup_insert_eq.
Qed.

Lemma X8_witness :
  ∃ h1,
    move_into 5 1 sample_store = Ok (tt, h1)
    ∧ (∃ h2, copy_into 6 1 h1 = Ok (tt, h2)
             ∧ h2 !! 6%positive = Some (mkEndpoint Type_Unspecified (m_Dummy 0)))
    ∧ (∃ h2, move_into 6 1 h1 = Ok (tt, h2)
             ∧ h2 !! 6%positive = Some (mkEndpoint Type_Unspecified (m_Dummy 0))).
Proof.
  apply (X8_moved_from_hands_on_nothing sample_store 1 5 6
           (mkEndpoint Type_IP (m_IPEndpoint sample_ip))).
  - exact sample_store_reachable.
  - vm_compute. reflexivity.
  - discriminate.
  - discriminate.
Defined.

(** X9.  An assignment replaces the target whole: in two reachable stores
    that differ at most in the target, copy assignment from the same source
    ends in the same store, and so does move assignment.  Nothing of what
    the target held before, type or payload, survives. *)
Theorem X9_assignment_forgets_target
    (h1 h2 : Store) (dst src : loc) (d1 d2 : Endpoint) :
  reachable h1 → reachable h2 →
  (∀ l, l ≠ dst → h1 !! l = h2 !! l) →
  h1 !! dst = Some d1 → h2 !! dst = Some d2 → dst ≠ src →
  is_Some (h1 !! src) →
  (∃ h', assign_copy dst src h1 = Ok (tt, h')
         ∧ assign_copy dst src h2 = Ok (tt, h'))
  ∧ (∃ h', assign_move dst src h1 = Ok (tt, h')
           ∧ assign_move dst src h2 = Ok (tt, h')).
Proof.
  intros R1 R2 Agree D1 D2 Ne [es Es1].
  assert (Es2 : h2 !! src = Some es) by (rewrite <- Agree; congruence).
  pose proof (reachable_consistent h1 R1 src es Es1) as C.
  split.
  - exists (<[dst := received es]> h1).
    rewrite (assign_copy_ne _ _ _ _ _ Ne D1 Es1 C).
    rewrite (assign_copy_ne _ _ _ _ _ Ne D2 Es2 C).
    split; [reflexivity |]. do 2 f_equal. apply map_eq. intros l.
    destruct (decide (dst = l)) as [<- | Nl].
    + now rewrite !lookup_insert_eq.
    + rewrite (lookup_insert_ne h2 dst l), (lookup_insert_ne h1 dst l)
        by exact Nl.
      symmetry. apply Agree. congruence.
  - exists (<[dst := received es]> (<[src := moved_from es]> h1)).
    rewrite (assign_move_ne _ _ _ _ _ Ne D1 Es1 C).
    rewrite (assign_move_ne _ _ _ _ _ Ne D2 Es2 C).
    split; [reflexivity |]. do 2 f_equal. apply map_eq. intros l.
    destruct (decide (dst = l)) as [<- | Nl].
    + now rewrite !lookup_insert_eq.
    + rewrite (lookup_insert_ne (<[src := moved_from es]> h2) dst l) by exact Nl.
      rewrite (lookup_insert_ne (<[src := moved_from es]> h1) dst l) by exact Nl.
      destruct (decide (src = l)) as [<- | Nl'].
      * now rewrite !lookup_insert_eq.
      * rewrite (lookup_insert_ne h2 src l), (lookup_insert_ne h1 src l)
          by exact Nl'.
        symmetry. apply Agree. congruence.
Qed.

Lemma X9_witness :
  (∃ h', assign_copy 3 1 sample_store = Ok (tt, h')
         ∧ assign_copy 3 1 (final_store (sample_program ++ [CopyAssign 3 2]))
           = Ok (tt, h'))
  ∧ (∃ h', assign_move 3 1 sample_store = Ok (tt, h')
           ∧ assign_move 3 1 (final_store (sample_program ++ [CopyAssign 3 2]))
             = Ok (tt, h')).
Proof.
  apply (X9_assignment_forgets_target sample_store
           (final_store (sample_program ++ [CopyAssign 3 2])) 3 1
           (mkEndpoint Type_Unspecified (m_Dummy 0))
           (mkEndpoint Type_BTH (m_BTHEndpoint sample_bth))).
  - exact sample_store_reachable.
  - apply (reachable_run_all (sample_program ++ [CopyAssign 3 2]) ∅);
      [apply reachable_empty | vm_compute; reflexivity].
  - intros l Hl.
    assert (F : final_store (sample_program ++ [CopyAssign 3 2])
                = <[3%positive := mkEndpoint Type_BTH (m_BTHEndpoint sample_bth)]>
                    sample_store)
      by (vm_compute; reflexivity).
    rewrite F. now rewrite lookup_insert_ne.
  - vm_compute. reflexivity.
  - vm_compute. reflexivity.
  - discriminate.
  - vm_compute. eauto.
Defined.

(** X10.  Constructing an Endpoint from a concrete endpoint whose protocol
    is Unspecified does exactly what the default constructor does: the
    object has type Unspecified and [m_Dummy] 0, and whatever relay
    coordinates the concrete endpoint carried are dropped, [GetRelayPort]
    and [GetRelayHop] returning 0. *)
Theorem X10_unspecified_conversion_is_default :
  (∀ (this : loc) (v : IPEndpoint.t) (h : Store),
     IPEndpoint.GetProtocol v = Unspecified →
     ctor_IP this v h = ctor_default this h
     ∧ ∃ h' e, ctor_IP this v h = Ok (tt, h') ∧ h' !! this = Some e
               ∧ GetRelayPort e = Ok 0 ∧ GetRelayHop e = Ok 0)
  ∧ (∀ (this : loc) (v : BTHEndpoint.t) (h : Store),
       BTHEndpoint.GetProtocol v = Unspecified →
       ctor_BTH this v h = ctor_default this h
       ∧ ∃ h' e, ctor_BTH this v h = Ok (tt, h') ∧ h' !! this = Some e
                 ∧ GetRelayPort e = Ok 0 ∧ GetRelayHop e = Ok 0).
Proof.
  split; intros this v h U.
  - assert (Cv : ctor_IP this v h
                 = Ok (tt, <[this := mkEndpoint Type_Unspecified (m_Dummy 0)]> h)).
    { rewrite ctor_IP_eq. unfold converted_IP.
      unfold IPEndpoint.GetProtocol in U. now rewrite U. }
    split; [exact Cv |]. eexists _, _. split; [exact Cv |].
    rewrite lookup_insert_eq. now repeat split.
  - assert (Cv : ctor_BTH this v h
                 = Ok (tt, <[this := mkEndpoint Type_Unspecified (m_Dummy 0)]> h)).
    { rewrite ctor_BTH_eq. unfold converted_BTH.
      unfold BTHEndpoint.GetProtocol in U. now rewrite U. }
    split; [exact Cv |]. eexists _, _. split; [exact Cv |].
    rewrite lookup_insert_eq. now repeat split.
Qed.

Lemma X10_witness :
  ctor_BTH 1 (BTHEndpoint.make Unspecified 1108152157446 5 7 1) ∅
  = ctor_default 1 ∅.
Proof.
  apply (proj2 X10_unspecified_conversion_is_default 1%positive
           (BTHEndpoint.make Unspecified 1108152157446 5 7 1) ∅).
  reflexivity.
Defined.

(** X12.  On the objects of a reachable store, two objects that
    [operator==] finds equal are indistinguishable: [GetType],
    [GetIPEndpoint], [GetBTHEndpoint], [GetRelayPort] and [GetRelayHop]
    return the same on both. *)
Theorem X12_equal_objects_indistinguishable
    (h : Store) (la lb : loc) (a b : Endpoint) :
  reachable h → h !! la = Some a → h !! lb = Some b →
  op_eq a b = Ok true → same_value a b.
Proof.
  intros R Ea Eb Q.
  pose proof (reachable_consistent h R la a Ea) as Ca.
  pose proof (reachable_consistent h R lb b Eb) as Cb.
  rewrite (op_eq_received a b Ca Cb) in Q. injection Q as Q.
  apply bool_decide_eq_true in Q. now apply same_value_accessors.
Qed.

Lemma X12_witness :
  same_value (mkEndpoint Type_IP (m_IPEndpoint sample_ip))
             (mkEndpoint Type_IP (m_IPEndpoint sample_ip)).
Proof.
  apply (X12_equal_objects_indistinguishable sample_store 1 4).
  - exact sample_store_reachable.
  - vm_compute. reflexivity.
  - vm_compute. reflexivity.
  - reflexivity.
Defined.

(** X13.  The generic relay accessors agree with the typed ones: whenever
    [GetIPEndpoint] returns a payload, [GetRelayPort] and [GetRelayHop]
    return that payload's relay coordinates, and likewise for
    [GetBTHEndpoint]. *)
Theorem X13_relay_accessors_dispatch (e : Endpoint) :
  (∀ v, GetIPEndpoint e = Ok v →
     GetRelayPort e = Ok (IPEndpoint.GetRelayPort v)
     ∧ GetRelayHop e = Ok (IPEndpoint.GetRelayHop v))
  ∧ (∀ v, GetBTHEndpoint e = Ok v →
       GetRelayPort e = Ok (BTHEndpoint.GetRelayPort v)
       ∧ GetRelayHop e = Ok (BTHEndpoint.GetRelayHop v)).
Proof.
  unfold GetIPEndpoint, GetBTHEndpoint, GetRelayPort, GetRelayHop.
  split; intros v G.
  - destruct (N.eqb_spec (m_Type e) Type_IP) as [T | T]; [| discriminate G].
    now rewrite G.
  - destruct (N.eqb_spec (m_Type e) Type_BTH) as [T | T]; [| discriminate G].
    rewrite T, G. now split.
Qed.

Lemma X13_witness :
  GetRelayPort (mkEndpoint Type_IP (m_IPEndpoint sample_ip)) = Ok 42
  ∧ GetRelayHop (mkEndpoint Type_IP (m_IPEndpoint sample_ip)) = Ok 2.
Proof.
  apply (proj1 (X13_relay_accessors_dispatch
                  (mkEndpoint Type_IP (m_IPEndpoint sample_ip))) sample_ip).
  reflexivity.
Defined.

(** X14.  The type of a freshly converted Endpoint tells the protocol of
    its argument: after a successful construction from an IPEndpoint the
    type is IP exactly when the protocol is TCP, UDP or ICMP, Unspecified
    exactly when the protocol is Unspecified, and never BTH; after a
    successful construction from a BTHEndpoint it is BTH exactly when the
    protocol is RFCOMM, Unspecified exactly when the protocol is
    Unspecified, and never IP. *)
Theorem X14_converted_type_reflects_protocol :
  (∀ (this : loc) (v : IPEndpoint.t) (h h' : Store) (e : Endpoint),
     ctor_IP this v h = Ok (tt, h') → h' !! this = Some e →
     (GetType e = Type_IP
      ↔ IPEndpoint.valid_protocol (IPEndpoint.GetProtocol v) = true)
     ∧ (GetType e = Type_Unspecified ↔ IPEndpoint.GetProtocol v = Unspecified)
     ∧ GetType e ≠ Type_BTH)
  ∧ (∀ (this : loc) (v : BTHEndpoint.t) (h h' : Store) (e : Endpoint),
       ctor_BTH this v h = Ok (tt, h') → h' !! this = Some e →
       (GetType e = Type_BTH
        ↔ BTHEndpoint.valid_protocol (BTHEndpoint.GetProtocol v) = true)
       ∧ (GetType e = Type_Unspecified ↔ BTHEndpoint.GetProtocol v = Unspecified)
       ∧ GetType e ≠ Type_IP).
Proof.
  split; intros this v h h' e Cv E.
  - rewrite ctor_IP_eq in Cv. unfold converted_IP in Cv.
    unfold IPEndpoint.GetProtocol.
    destruct (IPEndpoint.protocol v); try discriminate Cv;
      injection Cv as <-; rewrite lookup_insert_eq in E; injection E as <-;
      simpl; repeat split; intros; try discriminate; reflexivity.
  - rewrite ctor_BTH_eq in Cv. unfold converted_BTH in Cv.
    unfold BTHEndpoint.GetProtocol.
    destruct (BTHEndpoint.protocol v); try discriminate Cv;
      injection Cv as <-; rewrite lookup_insert_eq in E; injection E as <-;
      simpl; repeat split; intros; try discriminate; reflexivity.
Qed.

Lemma X14_witness :
  (GetType (mkEndpoint Type_IP (m_IPEndpoint sample_ip)) = Type_IP
   ↔ IPEndpoint.valid_protocol (IPEndpoint.GetProtocol sample_ip) = true)
  ∧ (GetType (mkEndpoint Type_IP (m_IPEndpoint sample_ip)) = Type_Unspecified
     ↔ IPEndpoint.GetProtocol sample_ip = Unspecified)
  ∧ GetType (mkEndpoint Type_IP (m_IPEndpoint sample_ip)) ≠ Type_BTH.
Proof.
  apply (proj1 X14_converted_type_reflects_protocol 1%positive sample_ip ∅
           (<[1%positive := mkEndpoint Type_IP (m_IPEndpoint sample_ip)]> ∅)).
  - reflexivity.
  - vm_compute. reflexivity.
Defined.

(** X15.  In a reachable store, copy construction does what default
    construction followed by copy assignment does, and move construction
    what default construction followed by move assignment does: both ways
    end in the same store. *)
Theorem X15_construction_is_default_then_assignment
    (h : Store) (dst src : loc) :
  reachable h → h !! dst = None → is_Some (h !! src) →
  ctor_copy dst src h = (ctor_default dst ;; assign_copy dst src) h
  ∧ ctor_move dst src h = (ctor_default dst ;; assign_move dst src) h.
Proof.
  intros R F [es Es]. pose proof (reachable_consistent h R src es Es) as C.
  assert (Ne : dst ≠ src) by congruence.
  assert (Es' : <[dst := mkEndpoint Type_Unspecified (m_Dummy 0)]> h !! src
                = Some es) by now rewrite lookup_insert_ne.
  split.
  - rewrite (ctor_copy_fresh _ _ _ _ F Es C).
    rewrite (bind_Ok (ctor_default dst) _ h tt
               (<[dst := mkEndpoint Type_Unspecified (m_Dummy 0)]> h) eq_refl).
    erewrite assign_copy_ne; [| exact Ne | apply lookup_insert_eq | exact Es' | exact C].
    now rewrite insert_insert_eq.
  - rewrite (ctor_move_fresh _ _ _ _ F Es C).
    rewrite (bind_Ok (ctor_default dst) _ h tt
               (<[dst := mkEndpoint Type_Unspecified (m_Dummy 0)]> h) eq_refl).
    erewrite assign_move_ne; [| exact Ne | apply lookup_insert_eq | exact Es' | exact C].
    rewrite (insert_insert_ne _ src dst) by congruence.
    now rewrite insert_insert_eq.
Qed.

Lemma X15_witness :
  ctor_copy 5 1 sample_store = (ctor_default 5 ;; assign_copy 5 1) sample_store
  ∧ ctor_move 5 1 sample_store = (ctor_default 5 ;; assign_move 5 1) sample_store.
Proof.
  apply (X15_construction_is_default_then_assignment sample_store 5 1).
  - exact sample_store_reachable.
  - vm_compute. reflexivity.
  - vm_compute. eauto.
Defined.
